(** * tomdtopdf: the HTML-to-Markdown normaliser and the Markdown-to-PDF checks

    A shallow embedding of [2html2md.py] and of the two validation
    functions of [tomdtopdf.py], with the properties the specification
    states about them.

    Conventions.
    - A Python [str] is a [list ascii]: one element per character.  Each
      [ascii] stands for the code point with the same number, so the texts
      covered are those whose characters lie below 256; the character
      classes of [re] ([\s], [\w]) and of [str.strip] are given for exactly
      that range.
    - Tag names and attribute names are [string]s (they are only compared),
      attribute dictionaries are [gmap string (list ascii)].
    - [os.path] is [posixpath]. *)

From Stdlib Require Import Ascii String ZArith Lia Floats.
From stdpp Require Import base option list gmap strings fin_maps.

Local Open Scope list_scope.

(** ** Texts and characters *)

Abbreviation str := (list ascii).

(** A literal: [chars "ab"] is the text [['a'; 'b']]. *)
Definition chars (s : string) : str := list_ascii_of_string s.

Definition LF : ascii := "010"%char.
Definition CR : ascii := "013"%char.
Definition SP : ascii := " "%char.
Definition HASH : ascii := "#"%char.
Definition BANG : ascii := "!"%char.
Definition LBRACKET : ascii := "["%char.
Definition AMP : ascii := "&"%char.
Definition SLASH : ascii := "/"%char.

Definition code (c : ascii) : nat := nat_of_ascii c.

Definition between (lo hi n : nat) : bool := (lo <=? n) && (n <=? hi).

(** [Py_UNICODE_ISSPACE], the class behind [\s], [\S] and [str.strip()]:
    TAB..CR, FS..US, space, NEL and the no-break space. *)
Definition is_space (c : ascii) : bool :=
  let n := code c in
  between 9 13 n || between 28 31 n || (n =? 32) || (n =? 133) || (n =? 160).

(** [Py_UNICODE_ISALNUM] or underscore, the class behind [\w] and [\b]. *)
Definition is_word (c : ascii) : bool :=
  let n := code c in
  between 48 57 n || between 65 90 n || (n =? 95) || between 97 122 n
  || (n =? 170) || (n =? 178) || (n =? 179) || (n =? 181) || (n =? 185)
  || (n =? 186) || between 188 190 n || between 192 214 n
  || between 216 246 n || between 248 255 n.

(** ** [re.sub] and [re.search]

    [re.sub(pattern, repl, text)] scans the text from left to right.  At each
    position it tries the pattern; on a match it emits the replacement and
    resumes right after the matched characters, otherwise it copies one
    character and moves on.  The patterns of this program look behind by at
    most one character ([^], [\b], [(?<!\!)]) and never match the empty
    text, so a pattern is a function of the previous character and of the
    text that remains, giving the replacement and the number of characters
    matched. *)

Section Regex.

Variable try_match : option ascii -> str -> option (str * nat).

(** [skip] counts the matched characters still to be passed over. *)
Fixpoint sub_from (prev : option ascii) (skip : nat) (s : str) : str :=
  match s with
  | [] => match skip, try_match prev [] with
          | O, Some (repl, _) => repl
          | _, _ => []
          end
  | c :: s' =>
      match skip with
      | S k => sub_from (Some c) k s'
      | O =>
          match try_match prev s with
          | Some (repl, n) => repl ++ sub_from (Some c) (pred n) s'
          | None => c :: sub_from (Some c) 0 s'
          end
      end
  end.

Definition re_sub (s : str) : str := sub_from None 0 s.

(** [re.search(pattern, text)]: the match at the first position where the
    pattern matches; [match_at] gives the captured group of a match that
    starts where the remaining text starts. *)
Variable match_at : str -> option str.

Fixpoint re_search (s : str) : option str :=
  match match_at s with
  | Some g => Some g
  | None =>
      match s with
      | [] => None
      | _ :: s' => re_search s'
      end
  end.

End Regex.

(** ** [increase_heading_levels]

    [re.sub(r'^(#{1,6})', replace_heading, text, flags=re.MULTILINE)] with
    [replace_heading(m) = '#' + m.group(1)]. *)

(** [^] under [re.MULTILINE]: at the start of the text or right after a
    line feed. *)
Definition at_line_start (prev : option ascii) : bool :=
  match prev with
  | None => true
  | Some c => Ascii.eqb c LF
  end.

(** The greedy [#{0,k}]: how many of the first [k] characters are ['#']. *)
Fixpoint hashes (k : nat) (s : str) : nat :=
  match k, s with
  | S k', c :: s' => if Ascii.eqb c HASH then S (hashes k' s') else 0
  | _, _ => 0
  end.

Definition replace_heading (heading : str) : str := HASH :: heading.

Definition heading_match (prev : option ascii) (s : str) : option (str * nat) :=
  if at_line_start prev then
    match hashes 6 s with
    | O => None
    | n => Some (replace_heading (take n s), n)
    end
  else None.

Definition increase_heading_levels (markdown_content : str) : str :=
  re_sub heading_match markdown_content.

(** ** [ensure_space_before_links]

    [re.sub(r'(?<!\!)\b(\S)(\[)', r'\1 \2', text)]. *)

(** [(?<!\!)]: the previous character, if any, is not ['!']. *)
Definition not_after_bang (prev : option ascii) : bool :=
  match prev with
  | Some c => negb (Ascii.eqb c BANG)
  | None => true
  end.

(** [\b] in front of the character [c]: exactly one of the previous
    character and [c] is a word character (the start of the text counts as
    a non-word character). *)
Definition word_boundary (prev : option ascii) (c : ascii) : bool :=
  xorb (match prev with Some p => is_word p | None => false end) (is_word c).

Definition link_match (prev : option ascii) (s : str) : option (str * nat) :=
  match s with
  | c :: b :: _ =>
      if not_after_bang prev && word_boundary prev c
         && negb (is_space c) && Ascii.eqb b LBRACKET
      then Some ([c; SP; b], 2)
      else None
  | _ => None
  end.

Definition ensure_space_before_links (markdown_content : str) : str :=
  re_sub link_match markdown_content.

(** ** [clean_google_url]

    [re.search(r'q=(https?://[^&]+)', url)], then
    [match.group(1) if match else url]. *)

(** A literal of the pattern: the text that follows [p] when [s] starts
    with [p]. *)
Fixpoint strip_prefix (p s : str) : option str :=
  match p, s with
  | [], _ => Some s
  | a :: p', c :: s' => if Ascii.eqb a c then strip_prefix p' s' else None
  | _ :: _, [] => None
  end.

(** The greedy [[^&]*]: the longest prefix without ['&']. *)
Fixpoint span_no_amp (s : str) : str :=
  match s with
  | c :: s' => if Ascii.eqb c AMP then [] else c :: span_no_amp s'
  | [] => []
  end.

(** [://[^&]+] after a scheme; the result is the whole group. *)
Definition url_rest (scheme s : str) : option str :=
  match strip_prefix (chars "://") s with
  | Some t =>
      match span_no_amp t with
      | [] => None
      | u => Some (scheme ++ chars "://" ++ u)
      end
  | None => None
  end.

(** [https?://[^&]+]: the optional [s] is tried first, and given up when
    the rest does not match with it. *)
Definition url_here (s : str) : option str :=
  match strip_prefix (chars "http") s with
  | Some r =>
      let with_s :=
        match r with
        | c :: r' =>
            if Ascii.eqb c "s"%char then url_rest (chars "https") r' else None
        | [] => None
        end in
      match with_s with
      | Some g => Some g
      | None => url_rest (chars "http") r
      end
  | None => None
  end.

Definition q_match (s : str) : option str :=
  match strip_prefix (chars "q=") s with
  | Some r => url_here r
  | None => None
  end.

Definition clean_google_url (url : str) : str :=
  match re_search q_match url with
  | Some g => g
  | None => url
  end.

(** ** The document tree

    What [BeautifulSoup(html, 'html.parser')] builds, as far as the program
    looks at it: text nodes and elements with a name, an attribute
    dictionary and children.  Comments, doctypes and processing
    instructions are left out. *)

#[local] Set Warnings "-register-all".

Inductive node : Type :=
| Text (s : str)
| Elem (name : string) (attrs : gmap string str) (children : list node).

Definition is_text (n : node) : bool :=
  match n with
  | Text _ => true
  | Elem _ _ _ => false
  end.

Definition is_tag (tag : string) (n : node) : bool :=
  match n with
  | Text _ => false
  | Elem name _ _ => String.eqb name tag
  end.

Definition has_attr (key : string) (n : node) : bool :=
  match n with
  | Text _ => false
  | Elem _ attrs _ => bool_decide (is_Some (attrs !! key))
  end.

(** *** Exceptions *)

Inductive exn : Type :=
| KeyError (key : string)
| AttributeError
| TypeError.

Inductive result (A : Type) : Type :=
| Ok (a : A)
| Raise (e : exn).

Arguments Ok {A} a.
Arguments Raise {A} e.

Definition bind {A B : Type} (r : result A) (k : A -> result B) : result B :=
  match r with
  | Ok a => k a
  | Raise e => Raise e
  end.

Notation "'do' x <- r ; k" := (bind r (fun x => k))
  (at level 10, x name, r at level 100, k at level 200,
   format "'[v' 'do'  x  <-  r ; '/' k ']'").

(** [d[key]] *)
Definition getitem (d : gmap string str) (key : string) : result str :=
  match d !! key with
  | Some v => Ok v
  | None => Raise (KeyError key)
  end.

(** *** References into the tree

    The program holds references to nodes of one tree that it mutates in
    place.  A reference is the path from the root: the index of a child,
    then the index of a child of that child, and so on.  No step of the
    program adds, removes or moves a node, so a path keeps denoting the
    same node for the whole run. *)

Abbreviation path := (list nat).

Fixpoint get (n : node) (p : path) : option node :=
  match p with
  | [] => Some n
  | i :: p' =>
      match n with
      | Text _ => None
      | Elem _ _ kids =>
          match kids !! i with
          | Some k => get k p'
          | None => None
          end
      end
  end.

(** Running [body] on the node a path refers to; the node is replaced by
    what [body] leaves of it. *)
Fixpoint update (body : node -> result node) (p : path) (n : node)
  : result node :=
  match p with
  | [] => body n
  | i :: p' =>
      match n with
      | Text _ => Ok n
      | Elem name attrs kids =>
          match kids !! i with
          | Some k =>
              do k' <- update body p' k;
              Ok (Elem name attrs (<[i := k']> kids))
          | None => Ok n  (* no such child: not a path of [find_all] *)
          end
      end
  end.

(** [n.find_all(...)]: the descendants of [n] that [m] accepts, in document
    order. *)
Section FindAll.

Variable found : node -> list path.
Variable m : node -> bool.

Fixpoint find_in (i : nat) (kids : list node) : list path :=
  match kids with
  | [] => []
  | k :: kids' =>
      (if m k then [[i]] else [])
      ++ map (cons i) (found k) ++ find_in (S i) kids'
  end.

End FindAll.

Fixpoint find_all (m : node -> bool) (n : node) : list path :=
  match n with
  | Text _ => []
  | Elem _ _ kids => find_in (find_all m) m 0 kids
  end.

(** [for x in found: body(x)] *)
Fixpoint for_each (body : node -> result node) (found : list path)
  (soup : node) : result node :=
  match found with
  | [] => Ok soup
  | p :: found' =>
      do soup' <- update body p soup;
      for_each body found' soup'
  end.

(** *** [os.path.basename] and [os.path.join] *)

(** [s.rfind(c)] *)
Fixpoint rfind (c : ascii) (s : str) : Z :=
  match s with
  | [] => (-1)%Z
  | a :: s' =>
      let r := rfind c s' in
      if (r <? 0)%Z then (if Ascii.eqb a c then 0%Z else (-1)%Z)
      else (r + 1)%Z
  end.

(** [i = p.rfind('/') + 1; return p[i:]] *)
Definition basename (p : str) : str :=
  let i := (rfind SLASH p + 1)%Z in
  drop (Z.to_nat i) p.

(** [os.path.join(a, b)]: [if b.startswith('/'): path = b; elif not path
    or path.endswith('/'): path += b; else: path += '/' + b] *)
Definition path_join (a b : str) : str :=
  if bool_decide (head b = Some SLASH) then b
  else if bool_decide (a = []) || bool_decide (last a = Some SLASH)
       then a ++ b
       else a ++ SLASH :: b.

(** *** The three tree passes of [convert_html_to_md] *)

(** [src = img.get('src'); if src: img['src'] = os.path.join('images',
    os.path.basename(src))] *)
Definition img_body (img : node) : result node :=
  match img with
  | Text _ => Raise AttributeError
  | Elem name attrs kids =>
      match attrs !! "src"%string with
      | Some ((_ :: _) as src) =>
          Ok (Elem name
                (<["src"%string := path_join (chars "images") (basename src)]>
                   attrs) kids)
      | Some [] | None => Ok img
      end
  end.

Definition process_images (soup : node) : result node :=
  for_each img_body (find_all (is_tag "img") soup) soup.

(** [a['href'] = clean_google_url(a['href'])] *)
Definition a_body (a : node) : result node :=
  match a with
  | Text _ => Raise TypeError
  | Elem name attrs kids =>
      do href <- getitem attrs "href";
      Ok (Elem name (<["href"%string := clean_google_url href]> attrs) kids)
  end.

Definition process_links (soup : node) : result node :=
  for_each a_body
    (find_all (fun n => is_tag "a" n && has_attr "href" n) soup) soup.

(** [s.replace(old, new)] for one-character [old] and [new] *)
Definition replace (old new : ascii) (s : str) : str :=
  map (fun c => if Ascii.eqb c old then new else c) s.

(** [new_text = text_node.replace('\n', ' ').replace('\r', ' ');
    text_node.replace_with(new_text)] *)
Definition text_body (text_node : node) : result node :=
  match text_node with
  | Text s => Ok (Text (replace CR SP (replace LF SP s)))
  | Elem _ _ _ => Raise AttributeError
  end.

(** [for text_node in p.find_all(string=True): ...] *)
Definition p_body (p : node) : result node :=
  for_each text_body (find_all is_text p) p.

Definition remove_line_breaks_within_paragraphs (soup : node) : result node :=
  for_each p_body (find_all (is_tag "p") soup) soup.

(** *** [convert_html_to_md], between parsing and writing

    [markdownify] stands for [md(str(soup), heading_style="ATX")]. *)
Section Pipeline.

Variable markdownify : node -> str.

Definition convert_html_to_md (soup : node) : result str :=
  do soup1 <- process_images soup;
  do soup2 <- process_links soup1;
  do soup3 <- remove_line_breaks_within_paragraphs soup2;
  let markdown_content := markdownify soup3 in
  let markdown_content := increase_heading_levels markdown_content in
  let markdown_content := ensure_space_before_links markdown_content in
  Ok markdown_content.

End Pipeline.

(** ** File names

    [os.path.splitext] for the name of the output file of [2html2md.py],
    [os.path.split] for the template of [md2html]. *)

Definition DOT : ascii := "."%char.

(** The loop of [genericpath._splitext] over [p[sepIndex+1:dotIndex]],
    which skips leading dots: whether a character other than ['.'] stands
    between the last ['/'] and the last ['.']. *)
Fixpoint has_name (s : str) : bool :=
  match s with
  | [] => false
  | c :: s' => if Ascii.eqb c DOT then has_name s' else true
  end.

(** [os.path.splitext(p)] *)
Definition splitext (p : str) : str * str :=
  let sepIndex := rfind SLASH p in
  let dotIndex := rfind DOT p in
  if (sepIndex <? dotIndex)%Z
     && has_name (take (Z.to_nat (dotIndex - (sepIndex + 1)))
                    (drop (Z.to_nat (sepIndex + 1)) p))
  then (take (Z.to_nat dotIndex) p, drop (Z.to_nat dotIndex) p)
  else (p, []).

(** [output_md_file = os.path.splitext(input_html_file)[0] + '.md'] *)
Definition output_md_file (input_html_file : str) : str :=
  fst (splitext input_html_file) ++ chars ".md".

(** [s.lstrip(c)] and [s.rstrip(c)] for a one-character [c] *)
Fixpoint lstrip_char (c : ascii) (s : str) : str :=
  match s with
  | a :: s' => if Ascii.eqb a c then lstrip_char c s' else s
  | [] => []
  end.

Definition rstrip_char (c : ascii) (s : str) : str :=
  reverse (lstrip_char c (reverse s)).

(** [os.path.split(p)]: [i = p.rfind('/') + 1; head, tail = p[:i], p[i:];
    if head and head != '/'*len(head): head = head.rstrip('/')] *)
Definition path_split (p : str) : str * str :=
  let i := Z.to_nat (rfind SLASH p + 1) in
  let head := take i p in
  let tail := drop i p in
  (if bool_decide (head <> [])
      && bool_decide (head <> replicate (length head) SLASH)
   then rstrip_char SLASH head
   else head,
   tail).

(** [template_dir, template_file = os.path.split(template_location);
    template_dir = template_dir if template_dir else "."] *)
Definition template_parts (template_location : str) : str * str :=
  let (template_dir, template_file) := path_split template_location in
  (match template_dir with
   | [] => chars "."
   | _ :: _ => template_dir
   end,
   template_file).

(** ** Lines

    [text.split("\n")] and ["\n".join(lines)]. *)

Fixpoint split_lines (s : str) : list str :=
  match s with
  | [] => [[]]
  | c :: s' =>
      if Ascii.eqb c LF then [] :: split_lines s'
      else match split_lines s' with
           | l :: ls => (c :: l) :: ls
           | [] => [[c]]
           end
  end.

Fixpoint join_lines (ls : list str) : str :=
  match ls with
  | [] => []
  | l :: ls' =>
      match ls' with
      | [] => l
      | _ :: _ => l ++ LF :: join_lines ls'
      end
  end.

(** What the specification says of one line: a line that begins with ['#']
    gets one more ['#'] in front, any other line stays as it is. *)
Definition promote_line (l : str) : str :=
  match l with
  | c :: _ => if Ascii.eqb c HASH then HASH :: l else l
  | [] => []
  end.

Definition promote_lines (s : str) : str :=
  join_lines (map promote_line (split_lines s)).

(** The same, character by character: [bol] tells whether the next
    character begins a line. *)
Fixpoint promote_from (bol : bool) (s : str) : str :=
  match s with
  | [] => []
  | c :: s' =>
      (if bol && Ascii.eqb c HASH then [HASH] else [])
      ++ c :: promote_from (Ascii.eqb c LF) s'
  end.

(** ** [tomdtopdf.py]: the checks in front of the conversion *)

(** The values a YAML front matter gives to its keys. *)
Inductive pyval : Type :=
| PyNone
| PyBool (b : bool)
| PyInt (z : Z)
| PyFloat (x : float)
| PyStr (s : str)
| PyDate (year month day : Z)
| PyList (items : list pyval)
| PyDict (items : list (pyval * pyval)).

(** [bool(v)] *)
Definition truthy (v : pyval) : bool :=
  match v with
  | PyNone => false
  | PyBool b => b
  | PyInt z => negb (z =? 0)%Z
  | PyFloat x => negb (PrimFloat.eqb x 0%float)
  | PyStr s => match s with [] => false | _ :: _ => true end
  | PyDate _ _ _ => true
  | PyList items => match items with [] => false | _ :: _ => true end
  | PyDict items => match items with [] => false | _ :: _ => true end
  end.

(** What the process does that can be seen from outside, and how a
    function ends: it returns, or [sys.exit] ends the process. *)
Inductive event : Type :=
| Printed (msg : str)
| Transformed
| Rendered.

Inductive ending (A : Type) : Type :=
| Returned (a : A)
| Exited (status : Z).

Arguments Returned {A} a.
Arguments Exited {A} status.

Definition run (A : Type) : Type := list event * ending A.

Definition ret {A : Type} (a : A) : run A := ([], Returned a).

Definition seq {A B : Type} (r : run A) (k : A -> run B) : run B :=
  match r with
  | (log, Returned a) => let (log', e) := k a in (log ++ log', e)
  | (log, Exited status) => (log, Exited status)
  end.

Definition print (msg : str) : run unit := ([Printed msg], Returned tt).
Definition sys_exit {A : Type} (status : Z) : run A := ([], Exited status).
Definition emit (e : event) : run unit := ([e], Returned tt).

Definition required_fields : list string :=
  ["title"; "version"; "date_modified"; "pdf_filename"]%string.

(** [for field in fields: if field not in metadata or not metadata[field]:
    print(...); sys.exit(1)] *)
Fixpoint check_fields (fields : list string) (metadata : gmap string pyval)
  : run unit :=
  match fields with
  | [] => ret tt
  | field :: fields' =>
      seq (if match metadata !! field with
              | None => true
              | Some v => negb (truthy v)
              end
           then seq (print (chars "Metadata field '" ++ chars field
                             ++ chars "' is missing or empty."))
                    (fun _ => sys_exit 1)
           else ret tt)
          (fun _ => check_fields fields' metadata)
  end.

Definition field_check (metadata : gmap string pyval) : run unit :=
  check_fields required_fields metadata.

(** [s.lstrip()], [s.rstrip()], [s.strip()], [s.startswith(p)] *)
Fixpoint lstrip (s : str) : str :=
  match s with
  | c :: s' => if is_space c then lstrip s' else s
  | [] => []
  end.

Definition rstrip (s : str) : str := reverse (lstrip (reverse s)).
Definition strip (s : str) : str := rstrip (lstrip s).

Definition startswith (p s : str) : bool :=
  match strip_prefix p s with
  | Some _ => true
  | None => false
  end.

Definition content_check (content : str) : run unit :=
  seq (match content with
       | [] => seq (print (chars "Markdown content not present."))
                   (fun _ => sys_exit 1)
       | _ :: _ => ret tt
       end)
      (fun _ =>
         if negb (existsb (fun line => startswith (chars "#") (strip line))
                    (split_lines content))
         then seq (print (chars "Suspiciously, the Markdown content does not contain a title; exiting."))
                  (fun _ => sys_exit 1)
         else ret tt).

Section Main.

(** The two library calls.  [render_html] is the body of the [try] of
    [md2html]: it gives the HTML and the template directory, or the text
    of the exception it raised.  [write_pdf] is
    [HTML(string=html, base_url=...).write_pdf(name)]: it gives the text of
    the exception when it raised one. *)
Variable render_html : gmap string pyval -> str -> str -> str + (str * str).
Variable write_pdf : str -> pyval -> option str.

Definition md2html (metadata : gmap string pyval) (content : str)
  (template_location : str) : run (str * str) :=
  seq (emit Transformed)
      (fun _ =>
         match render_html metadata content template_location with
         | inr (html, template_dir) => ret (html, template_dir)
         | inl e =>
             seq (print (chars "md2html() failed to convert md to html: "
                           ++ e ++ chars "."))
                 (fun _ => sys_exit 1)
         end).

Definition html2pdf (metadata : gmap string pyval) (html : str) : run unit :=
  let failed (e : str) : run unit :=
    seq (print (chars "html2pdf() failed to generate PDF: " ++ e ++ chars "."))
        (fun _ => sys_exit 1) in
  if match metadata !! "pdf_filename"%string with
     | Some name => truthy name
     | None => false
     end
  then
    match metadata !! "pdf_filename"%string with
    | Some name =>
        seq (emit Rendered)
            (fun _ =>
               match write_pdf html name with
               | None => ret tt
               | Some e => failed e
               end)
    | None => failed (chars "'pdf_filename'")
    end
  else failed (chars "Cannot access file from pdf_filename.").

(** [main], from the loaded document on. *)
Definition main (template_location : str) (metadata : gmap string pyval)
  (content : str) : run unit :=
  seq (field_check metadata) (fun _ =>
  seq (content_check content) (fun _ =>
  seq (md2html metadata content template_location) (fun r =>
  let (html, template_dir) := r in
  html2pdf metadata html))).

End Main.

(** ** Vocabulary of the statements *)

(** A value is empty when it is [None] or an empty text, list or mapping. *)
Definition is_empty (v : pyval) : Prop :=
  v = PyNone \/ v = PyStr [] \/ v = PyList [] \/ v = PyDict [].

(** The pattern of the link clean-up as the specification writes it,
    [q=<scheme>://<rest-up-to-next-&>]: [url] is [pre], then [q=], a
    scheme ([http] or [https]), [://], a non-empty [rest] without ['&'],
    and a [tail] that is empty or begins with ['&']. *)
Definition q_url_at (url pre scheme rest tail : str) : Prop :=
  url = pre ++ chars "q=" ++ scheme ++ chars "://" ++ rest ++ tail
  /\ (scheme = chars "http" \/ scheme = chars "https")
  /\ rest <> []
  /\ (AMP ∉ rest)
  /\ (tail = [] \/ exists t, tail = AMP :: t).

(** *** Lines that begin with ['#'] *)

(** How many lines of [s] begin with ['#'], [bol] telling whether the next
    character begins a line. *)
Fixpoint heading_lines (bol : bool) (s : str) : nat :=
  match s with
  | [] => 0
  | c :: s' =>
      (if bol && Ascii.eqb c HASH then 1 else 0)
      + heading_lines (Ascii.eqb c LF) s'
  end.

(** *** Trees after a pass *)

(** A fallible function over a list, from left to right, stopping at the
    first exception. *)
Fixpoint mapM {A B : Type} (f : A -> result B) (l : list A)
  : result (list B) :=
  match l with
  | [] => Ok []
  | a :: l' => do b <- f a; do bs <- mapM f l'; Ok (b :: bs)
  end.

(** One child of the node whose descendants are searched: the body runs on
    the child if [m] accepts it, then on the accepted descendants of the
    child, which were found before the child was changed. *)
Definition visit (body : node -> result node) (m : node -> bool) (k : node)
  : result node :=
  do k1 <- (if m k then body k else Ok k);
  for_each body (find_all m k) k1.

(** Every element of the tree with its attributes rewritten by [g]. *)
Fixpoint map_attrs (g : string -> gmap string str -> gmap string str)
  (n : node) : node :=
  match n with
  | Text s => Text s
  | Elem name attrs kids => Elem name (g name attrs) (map (map_attrs g) kids)
  end.

(** The same for the descendants of [n] only. *)
Definition map_attrs_below (g : string -> gmap string str -> gmap string str)
  (n : node) : node :=
  match n with
  | Text s => Text s
  | Elem name attrs kids => Elem name attrs (map (map_attrs g) kids)
  end.

(** What the image pass does to the attributes of one element. *)
Definition img_attrs (name : string) (attrs : gmap string str)
  : gmap string str :=
  if String.eqb name "img" then
    match attrs !! "src"%string with
    | Some ((_ :: _) as src) =>
        <["src"%string := path_join (chars "images") (basename src)]> attrs
    | Some [] | None => attrs
    end
  else attrs.

(** What the link pass does to the attributes of one element. *)
Definition a_attrs (name : string) (attrs : gmap string str)
  : gmap string str :=
  if String.eqb name "a" then
    match attrs !! "href"%string with
    | Some href => <["href"%string := clean_google_url href]> attrs
    | None => attrs
    end
  else attrs.

(** What the paragraph pass does to one text. *)
Definition collapse_breaks (s : str) : str := replace CR SP (replace LF SP s).

(** The tree with the text nodes inside paragraphs collapsed; [inp] tells
    whether [n] itself lies inside a paragraph. *)
Fixpoint collapse (inp : bool) (n : node) : node :=
  match n with
  | Text s => Text (if inp then collapse_breaks s else s)
  | Elem name attrs kids =>
      Elem name attrs (map (collapse (inp || String.eqb name "p")) kids)
  end.

(** The same below the root, whose own name [find_all] does not look at. *)
Definition collapse_below (soup : node) : node :=
  match soup with
  | Text s => Text s
  | Elem name attrs kids => Elem name attrs (map (collapse false) kids)
  end.

(** *** Paragraphs on the way to a node *)

(** The node that [p] refers to is contained in a paragraph element of the
    soup: the path passes through an element named [p], which is neither
    the root (that [find_all] does not return) nor the node itself. *)
Definition in_paragraph (soup : node) (p : path) : Prop :=
  exists (p1 p2 : path) attrs kids,
    p = p1 ++ p2 /\ p1 <> [] /\ p2 <> []
    /\ get soup p1 = Some (Elem "p" attrs kids).

(** [n] or a node between [n] and the node at [p] is a paragraph. *)
Fixpoint below_p (n : node) (p : path) : bool :=
  match p with
  | [] => false
  | i :: p' =>
      is_tag "p" n
      || match n with
         | Text _ => false
         | Elem _ _ kids =>
             match kids !! i with
             | Some k => below_p k p'
             | None => false
             end
         end
  end.

(** [in_paragraph] as a computation. *)
Definition inside_p (soup : node) (p : path) : bool :=
  match p, soup with
  | i :: p', Elem _ _ kids =>
      match kids !! i with
      | Some k => below_p k p'
      | None => false
      end
  | _, _ => false
  end.

(** *** Example documents *)

Definition hello_soup : node :=
  Elem "[document]" ∅
    [ Elem "p" ∅
        [Text (chars "Hello" ++ LF :: chars "World" ++ CR :: LF :: chars "!")];
      Elem "h1" ∅ [Text (chars "A" ++ [LF] ++ chars "B")] ].

Definition redirect_url : str :=
  chars "https://www.google.com/url?q=https://example.com/page&other=1".

Definition freq_url : str := chars "https://host/?freq=https://x.com&a=1".

Definition ftp_url : str :=
  chars "https://www.google.com/url?q=ftp://example.com/file&other=1".

Definition link_soup : node :=
  Elem "[document]" ∅
    [ Elem "a" {[ "href"%string := redirect_url ]} [Text (chars "x")];
      Elem "a" {[ "name"%string := chars "top" ]} [] ].

Definition ftp_soup : node :=
  Elem "[document]" ∅
    [ Elem "a" {[ "href"%string := ftp_url ]} [Text (chars "file")] ].

Definition empty_src_soup : node :=
  Elem "[document]" ∅ [ Elem "img" {[ "src"%string := [] ]} [] ].

Definition photo_soup : node :=
  Elem "[document]" ∅
    [ Elem "div" ∅
        [ Elem "img" {[ "src"%string := chars "/a/b/photo.png" ]} [];
          Elem "img" {[ "alt"%string := chars "logo" ]} [] ] ].

Definition plain_soup : node :=
  Elem "[document]" ∅
    [ Elem "img" {[ "alt"%string := chars "logo" ]} [];
      Elem "a" {[ "href"%string := chars "https://example.com/" ]}
        [Text (chars "home")] ].

Definition no_title : gmap string pyval :=
  {[ "version"%string := PyFloat 1%float;
     "date_modified"%string := PyDate 2024 12 4;
     "pdf_filename"%string := PyStr (chars "test.pdf") ]}.

Definition full_metadata : gmap string pyval :=
  <["title"%string := PyStr (chars "Test Title")]> no_title.

(** ** Vocabulary of the further properties *)

(** [t] is [s] with single spaces put in, each between a character that is
    not whitespace and a ['['] that follows it directly. *)
Inductive spaced : str -> str -> Prop :=
| spaced_nil : spaced [] []
| spaced_keep (c : ascii) (s t : str) :
    spaced s t -> spaced (c :: s) (c :: t)
| spaced_insert (c : ascii) (s t : str) :
    is_space c = false ->
    spaced s t ->
    spaced (c :: LBRACKET :: s) (c :: SP :: LBRACKET :: t).

(** Taking one ['#'] off every line that begins with one; [bol] tells
    whether the next character begins a line. *)
Fixpoint demote_from (bol : bool) (s : str) : str :=
  match s with
  | [] => []
  | c :: s' =>
      if bol && Ascii.eqb c HASH then demote_from false s'
      else c :: demote_from (Ascii.eqb c LF) s'
  end.

(** The attributes of an element without the one a pass may rewrite. *)
Definition forget (tag key : string) (name : string)
  (attrs : gmap string str) : gmap string str :=
  if String.eqb name tag then delete key attrs else attrs.


(** A front matter with a title and the version [0], and no file name:
    the version is what is reported. *)
Definition zero_version : gmap string pyval :=
  {[ "title"%string := PyStr (chars "Test Title");
     "version"%string := PyInt 0;
     "date_modified"%string := PyDate 2024 12 4 ]}.

(** * Properties of the text steps *)

Lemma split_lines_nonempty (s : str) : split_lines s <> [].
Proof.
  destruct s as [|c s]; simpl; [discriminate|].
  destruct (Ascii.eqb c LF); [discriminate|].
  destruct (split_lines s); discriminate.
Qed.

Lemma join_lines_cons (l : str) (ls : list str) :
  ls <> [] -> join_lines (l :: ls) = l ++ LF :: join_lines ls.
Proof. destruct ls; [congruence | reflexivity]. Qed.

Lemma join_split_lines (s : str) : join_lines (split_lines s) = s.
Proof.
  induction s as [|c s IH]; [reflexivity|].
  simpl split_lines. destruct (Ascii.eqb_spec c LF) as [->|Hc].
  - rewrite join_lines_cons by apply split_lines_nonempty.
    simpl. by rewrite IH.
  - pose proof (split_lines_nonempty s) as Hne.
    destruct (split_lines s) as [|l ls]; [done|].
    destruct ls as [|l' ls]; simpl in *; by rewrite <- IH.
Qed.

Lemma promote_from_lines (s : str) :
  promote_from true s = promote_lines s
  /\ promote_from false s
     = match split_lines s with
       | l :: ls => join_lines (l :: map promote_line ls)
       | [] => []
       end.
Proof.
  unfold promote_lines.
  induction s as [|c s [IHt IHf]]; [by split|].
  pose proof (split_lines_nonempty s) as Hne.
  simpl split_lines. simpl promote_from.
  destruct (Ascii.eqb_spec c LF) as [->|Hc].
  - assert (Hne' : map promote_line (split_lines s) <> [])
      by (destruct (split_lines s); [done | discriminate]).
    simpl map. rewrite !join_lines_cons by done.
    rewrite IHt. by split.
  - destruct (split_lines s) as [|l ls]; [done|].
    rewrite IHf. simpl map. split.
    + set (tl := map promote_line ls). unfold promote_line.
      destruct (Ascii.eqb c HASH); cbn [join_lines app]; by destruct tl.
    + simpl. by destruct (map promote_line ls).
Qed.

(** *** The scan of [increase_heading_levels] *)

Lemma hashes_take (k : nat) (s : str) :
  take (hashes k s) s = replicate (hashes k s) HASH.
Proof.
  revert s; induction k as [|k IH]; intros [|c s]; simpl; try reflexivity.
  destruct (Ascii.eqb_spec c HASH) as [->|]; simpl; [|reflexivity].
  by rewrite IH.
Qed.

Lemma sub_from_skip_hashes tm (k : nat) (s : str) :
  take k s = replicate k HASH ->
  sub_from tm (Some HASH) k s = sub_from tm (Some HASH) 0 (drop k s).
Proof.
  revert s; induction k as [|k IH]; intros s Hs; [reflexivity|].
  destruct s as [|c s]; [discriminate|].
  simpl in Hs. injection Hs as -> Hs. simpl. by apply IH.
Qed.

Lemma promote_from_hashes (n : nat) (t : str) :
  promote_from false (replicate n HASH ++ t)
  = replicate n HASH ++ promote_from false t.
Proof. induction n as [|n IH]; simpl; [reflexivity | by rewrite IH]. Qed.

Lemma heading_scan (n : nat) :
  forall (s : str) (prev : option ascii),
    length s < n ->
    sub_from heading_match prev 0 s = promote_from (at_line_start prev) s.
Proof.
  induction n as [|n IH]; intros s prev Hlen; [lia|].
  destruct s as [|c s].
  { simpl. unfold heading_match. by destruct (at_line_start prev). }
  simpl in Hlen.
  cbn [sub_from promote_from]. unfold heading_match.
  destruct (at_line_start prev); cbn [andb].
  - change (hashes 6 (c :: s))
      with (if Ascii.eqb c HASH then S (hashes 5 s) else 0).
    pose proof (hashes_take 5 s) as Htake.
    set (m := hashes 5 s) in *.
    destruct (Ascii.eqb_spec c HASH) as [->|Hc].
    + cbn [pred replace_heading take].
      rewrite sub_from_skip_hashes by done.
      rewrite IH by (rewrite length_drop; lia).
      change (at_line_start (Some HASH)) with false.
      change (Ascii.eqb HASH LF) with false.
      rewrite <- (take_drop m s) at 3.
      rewrite Htake, promote_from_hashes. reflexivity.
    + simpl. f_equal. apply IH. lia.
  - simpl. f_equal. apply IH. lia.
Qed.

Lemma increase_heading_levels_lines (s : str) :
  increase_heading_levels s = promote_lines s.
Proof.
  unfold increase_heading_levels, re_sub.
  rewrite (heading_scan (S (length s))) by lia.
  apply promote_from_lines.
Qed.

Lemma promote_from_length (s : str) (bol : bool) :
  length (promote_from bol s) = heading_lines bol s + length s.
Proof.
  revert bol; induction s as [|c s IH]; intros bol; [reflexivity|].
  simpl. rewrite length_app. simpl. rewrite IH.
  destruct (bol && Ascii.eqb c HASH); simpl; lia.
Qed.

Lemma promote_from_heading_lines (s : str) (bol : bool) :
  heading_lines bol (promote_from bol s) = heading_lines bol s.
Proof.
  revert bol; induction s as [|c s IH]; intros bol; [reflexivity|].
  simpl. destruct bol; simpl.
  - destruct (Ascii.eqb_spec c HASH) as [->|Hc]; simpl.
    + change (Ascii.eqb HASH LF) with false. simpl. by rewrite IH.
    + apply Ascii.eqb_neq in Hc. rewrite Hc. simpl. by rewrite IH.
  - by rewrite IH.
Qed.

(** *** The scan of [ensure_space_before_links] *)

Lemma link_match_needs_bracket (prev : option ascii) (s : str) :
  LBRACKET ∉ s -> link_match prev s = None.
Proof.
  intros Hs. destruct s as [|c [|b s]]; try reflexivity.
  simpl. destruct (Ascii.eqb_spec b LBRACKET) as [->|Hb].
  - exfalso. apply Hs. rewrite !elem_of_cons. auto.
  - by rewrite andb_false_r.
Qed.

Lemma link_scan_no_bracket (s : str) (prev : option ascii) :
  LBRACKET ∉ s -> sub_from link_match prev 0 s = s.
Proof.
  revert prev; induction s as [|c s IH]; intros prev Hs; [reflexivity|].
  cbn [sub_from]. rewrite link_match_needs_bracket by done.
  f_equal. apply IH. by apply not_elem_of_cons in Hs as [_ Hs].
Qed.

(** The pattern asks for a word boundary in front of the character that
    precedes the bracket, so it cannot match a character that continues a
    word, nor one that continues a run of non-word characters. *)
Lemma link_match_inside_word (p c : ascii) (s : str) :
  is_word p = is_word c -> link_match (Some p) (c :: s) = None.
Proof.
  intros Hw. destruct s as [|b s]; [reflexivity|].
  simpl. unfold word_boundary. rewrite Hw, xorb_nilpotent.
  by rewrite andb_false_r.
Qed.

(** Inside a run of word characters nothing matches, so the run is copied
    as it stands, whatever follows it. *)
Lemma link_scan_word (w rest : str) :
  forall p,
    is_word p = true ->
    Forall (fun c => is_word c = true) w ->
    sub_from link_match (Some p) 0 (w ++ rest)
    = w ++ sub_from link_match (Some (default p (last w))) 0 rest.
Proof.
  induction w as [|c w IH]; intros p Hp Hw; [reflexivity|].
  apply Forall_cons in Hw as [Hc Hw].
  cbn [app sub_from].
  rewrite link_match_inside_word by congruence.
  rewrite (IH c Hc Hw).
  assert (default c (last w) = default p (last (c :: w))) as ->; [|done].
  destruct w as [|c' w]; [reflexivity|]. rewrite last_cons_cons.
  assert (is_Some (last (c' :: w))) as [q ->] by by apply last_is_Some.
  reflexivity.
Qed.

(** A word of two or more word characters directly in front of a bracket
    is returned with the bracket right behind it: no space is inserted. *)
Lemma link_scan_long_word (a : ascii) (w rest : str) :
  is_word a = true ->
  Forall (fun c => is_word c = true) w ->
  w <> [] ->
  exists out,
    ensure_space_before_links (a :: w ++ LBRACKET :: rest)
    = a :: w ++ LBRACKET :: out.
Proof.
  intros Ha Hw Hne. unfold ensure_space_before_links, re_sub.
  assert (link_match None (a :: w ++ LBRACKET :: rest) = None) as Hfirst.
  { destruct w as [|b w]; [done|]. apply Forall_cons in Hw as [Hb _].
    simpl. destruct (Ascii.eqb_spec b LBRACKET) as [->|]; [discriminate|].
    by rewrite andb_false_r. }
  cbn [sub_from]. rewrite Hfirst, (link_scan_word _ _ a Ha Hw).
  set (q := default a (last w)).
  destruct rest as [|b rest]; [by eexists|].
  cbn [sub_from].
  destruct (link_match (Some q) (LBRACKET :: b :: rest)) as [[repl n]|] eqn:Hm;
    [|by eexists].
  simpl in Hm.
  destruct (_ && _) in Hm; [|discriminate].
  injection Hm as <- <-. by eexists.
Qed.

(** *** The search of [clean_google_url] *)

Lemma strip_prefix_Some (p s t : str) :
  strip_prefix p s = Some t <-> s = p ++ t.
Proof.
  revert s; induction p as [|a p IH]; intros s; simpl.
  - split; congruence.
  - destruct s as [|c s]; [split; discriminate|].
    destruct (Ascii.eqb_spec a c) as [->|Hac].
    + rewrite IH. split; congruence.
    + split; [discriminate | congruence].
Qed.

Lemma span_no_amp_app (rest tail : str) :
  AMP ∉ rest ->
  (tail = [] \/ exists t, tail = AMP :: t) ->
  span_no_amp (rest ++ tail) = rest.
Proof.
  intros Hrest Htail. induction rest as [|c rest IH]; simpl.
  - destruct Htail as [->|[t ->]]; reflexivity.
  - apply not_elem_of_cons in Hrest as [Hc Hrest].
    destruct (Ascii.eqb_spec c AMP) as [->|_]; [done|].
    f_equal. by apply IH.
Qed.

Lemma span_no_amp_split (t : str) :
  exists tail,
    t = span_no_amp t ++ tail
    /\ (AMP ∉ span_no_amp t)
    /\ (tail = [] \/ exists t', tail = AMP :: t').
Proof.
  induction t as [|c t IH]; simpl.
  2: destruct IH as (tail & Ht & Hno & Htail).
  - exists []. split_and!; [done | apply not_elem_of_nil | by left].
  - destruct (Ascii.eqb_spec c AMP) as [->|Hc].
    + exists (AMP :: t).
      split_and!; [done | apply not_elem_of_nil | right; eauto].
    + exists tail. split_and!; [simpl; congruence | | done].
      apply not_elem_of_cons. split; [congruence | done].
Qed.

Lemma url_rest_Some (scheme s g : str) :
  url_rest scheme s = Some g <->
  exists rest tail,
    s = chars "://" ++ rest ++ tail /\ g = scheme ++ chars "://" ++ rest
    /\ rest <> [] /\ (AMP ∉ rest)
    /\ (tail = [] \/ exists t, tail = AMP :: t).
Proof.
  unfold url_rest. split.
  - destruct (strip_prefix (chars "://") s) as [t|] eqn:Hs; [|discriminate].
    apply strip_prefix_Some in Hs.
    destruct (span_no_amp_split t) as (tail & Ht & Hno & Htail).
    destruct (span_no_amp t) as [|c u] eqn:Hu; [discriminate|].
    intros [= <-]. exists (c :: u), tail.
    split_and!; [congruence | done | done | done | done].
  - intros (rest & tail & -> & -> & Hne & Hno & Htail).
    assert (strip_prefix (chars "://") (chars "://" ++ rest ++ tail)
            = Some (rest ++ tail)) as -> by by apply strip_prefix_Some.
    rewrite span_no_amp_app by done. by destruct rest.
Qed.

Lemma q_match_Some (s g : str) :
  q_match s = Some g <->
  exists scheme rest tail,
    q_url_at s [] scheme rest tail /\ g = scheme ++ chars "://" ++ rest.
Proof.
  unfold q_match, url_here, q_url_at. split.
  - destruct (strip_prefix (chars "q=") s) as [r|] eqn:Hq; [|discriminate].
    apply strip_prefix_Some in Hq. subst s.
    destruct (strip_prefix (chars "http") r) as [r2|] eqn:Hh; [|discriminate].
    apply strip_prefix_Some in Hh. subst r.
    cbv zeta.
    set (with_s := match r2 with [] => None | c :: r' => _ end).
    destruct with_s as [g'|] eqn:Hw; subst with_s.
    + intros [= <-]. destruct r2 as [|c r3]; [discriminate|].
      destruct (Ascii.eqb_spec c "s"%char) as [->|]; [|discriminate].
      apply url_rest_Some in Hw as (rest & tail & -> & -> & ? & ? & ?).
      exists (chars "https"), rest, tail. split_and!; auto.
    + intros (rest & tail & -> & -> & ? & ? & ?)%url_rest_Some.
      exists (chars "http"), rest, tail. split_and!; auto.
  - intros (scheme & rest & tail & (-> & Hsch & Hne & Hno & Htail) & ->).
    assert (Hrest : forall sch, url_rest sch (chars "://" ++ rest ++ tail)
                           = Some (sch ++ chars "://" ++ rest)).
    { intros sch. apply url_rest_Some. exists rest, tail. by split_and!. }
    destruct Hsch as [-> | ->]; cbn -[url_rest]; by rewrite Hrest.
Qed.

Lemma re_search_Some (m : str -> option str) (s g : str) :
  re_search m s = Some g <->
  exists pre t,
    s = pre ++ t /\ m t = Some g
    /\ forall pre' t', s = pre' ++ t' -> length pre' < length pre ->
                      m t' = None.
Proof.
  revert g; induction s as [|c s IH]; intros g; simpl.
  - split.
    + destruct (m []) eqn:Hm; [|discriminate]. intros [= ->].
      exists [], []. split_and!; [done | done | simpl; lia].
    + intros (pre & t & Hs & Hm & _).
      symmetry in Hs. apply app_eq_nil in Hs as [-> ->]. by rewrite Hm.
  - destruct (m (c :: s)) as [g'|] eqn:Hm.
    + split.
      * intros [= ->]. exists [], (c :: s). split_and!; [done | done | simpl; lia].
      * intros (pre & t & Hs & Hmt & Hfirst).
        destruct pre as [|a pre].
        -- simpl in Hs. subst t. congruence.
        -- specialize (Hfirst [] (c :: s) eq_refl). simpl in Hfirst.
           rewrite Hfirst in Hm by lia. discriminate.
    + rewrite IH. split.
      * intros (pre & t & -> & Hmt & Hfirst).
        exists (c :: pre), t. split_and!; [done | done |].
        intros [|a pre'] t' Hs Hlen.
        -- simpl in Hs. by subst t'.
        -- simpl in Hs, Hlen. injection Hs as -> Hs.
           apply (Hfirst pre'); [done | lia].
      * intros (pre & t & Hs & Hmt & Hfirst).
        destruct pre as [|a pre].
        -- simpl in Hs. subst t. congruence.
        -- simpl in Hs. injection Hs as -> ->.
           exists pre, t. split_and!; [done | done |].
           intros pre' t' Hs Hlen.
           apply (Hfirst (a :: pre')); [by rewrite Hs | simpl; lia].
Qed.

Lemma re_search_None (m : str -> option str) (s : str) :
  re_search m s = None <-> forall pre t, s = pre ++ t -> m t = None.
Proof.
  induction s as [|c s IH]; simpl.
  - split.
    + destruct (m []) eqn:Hm; [discriminate|]. intros _ pre t Hs.
      symmetry in Hs. by apply app_eq_nil in Hs as [-> ->].
    + intros H. by rewrite (H [] []).
  - destruct (m (c :: s)) as [g'|] eqn:Hm.
    + split; [discriminate|]. intros H. by rewrite (H [] (c :: s)) in Hm.
    + rewrite IH. split.
      * intros H [|a pre] t Hs; simpl in Hs; [by subst t|].
        injection Hs as -> Hs. by apply (H pre).
      * intros H pre t ->. by apply (H (c :: pre)).
Qed.

(** * Properties of the tree passes *)

(** Induction over a tree, with the property available for every child. *)
Lemma node_ind' (P : node -> Prop) :
  (forall s, P (Text s)) ->
  (forall name attrs kids, Forall P kids -> P (Elem name attrs kids)) ->
  forall n, P n.
Proof.
  intros HT HE. fix IH 1. intros [s | name attrs kids]; [apply HT | apply HE].
  induction kids as [|k kids IHkids]; constructor; [apply IH | apply IHkids].
Qed.

Lemma mapM_Ok {A B : Type} (f : A -> result B) (g : A -> B) (l : list A) :
  Forall (fun a => f a = Ok (g a)) l -> mapM f l = Ok (map g l).
Proof.
  induction 1 as [|a l Ha _ IH]; [reflexivity|].
  simpl. by rewrite Ha, IH.
Qed.

Lemma for_each_app body (ps qs : list path) (soup : node) :
  for_each body (ps ++ qs) soup
  = (do soup' <- for_each body ps soup; for_each body qs soup').
Proof.
  revert soup; induction ps as [|p ps IH]; intros soup; [reflexivity|].
  simpl. destruct (update body p soup); simpl; [apply IH | reflexivity].
Qed.

(** Paths that all go through child [i] only touch that child. *)
Lemma for_each_child body (i : nat) (ps : list path) name attrs :
  forall (kids : list node) (k : node),
    kids !! i = Some k ->
    for_each body (map (cons i) ps) (Elem name attrs kids)
    = (do k' <- for_each body ps k; Ok (Elem name attrs (<[i := k']> kids))).
Proof.
  induction ps as [|p ps IH]; intros kids k Hk.
  - simpl. by rewrite list_insert_id.
  - cbn [map for_each update]. rewrite Hk.
    destruct (update body p k) as [k1|e]; [|reflexivity].
    cbn [bind].
    rewrite (IH _ k1) by (apply list_lookup_insert_eq; by eapply lookup_lt_Some).
    destruct (for_each body ps k1) as [k2|e]; [|reflexivity].
    cbn [bind]. by rewrite list_insert_insert_eq.
Qed.

Lemma for_each_find_in body m name attrs (kids pre : list node) :
  for_each body (find_in (find_all m) m (length pre) kids)
    (Elem name attrs (pre ++ kids))
  = (do kids' <- mapM (visit body m) kids; Ok (Elem name attrs (pre ++ kids'))).
Proof.
  revert pre; induction kids as [|k kids IH]; intros pre; [reflexivity|].
  assert (Hi : forall (x : node) l, (pre ++ x :: l) !! length pre = Some x)
    by (intros; by apply list_lookup_middle).
  assert (Hins : forall (x y : node) l,
             <[length pre := y]> (pre ++ x :: l) = pre ++ y :: l).
  { intros. rewrite insert_app_r_alt by lia.
    by rewrite Nat.sub_diag. }
  cbn [find_in mapM]. unfold visit at 1.
  rewrite for_each_app.
  assert (Hfirst : for_each body (if m k then [[length pre]] else [])
                     (Elem name attrs (pre ++ k :: kids))
                   = (do k1 <- (if m k then body k else Ok k);
                      Ok (Elem name attrs (pre ++ k1 :: kids)))).
  { destruct (m k); [|reflexivity].
    cbn [for_each update]. rewrite Hi.
    destruct (body k) as [k1|e]; [|reflexivity].
    cbn [bind]. by rewrite Hins. }
  rewrite Hfirst. clear Hfirst.
  destruct (if m k then body k else Ok k) as [k1|e]; [|reflexivity].
  cbn [bind]. rewrite for_each_app.
  rewrite (for_each_child _ _ _ _ _ _ k1) by apply Hi.
  destruct (for_each body (find_all m k) k1) as [k2|e]; [|reflexivity].
  cbn [bind]. rewrite Hins.
  replace (pre ++ k2 :: kids) with ((pre ++ [k2]) ++ kids)
    by by rewrite <- app_assoc.
  replace (S (length pre)) with (length (pre ++ [k2]))
    by (rewrite length_app; simpl; lia).
  rewrite IH.
  destruct (mapM (visit body m) kids) as [kids'|e]; [|reflexivity].
  cbn [bind]. by rewrite <- app_assoc.
Qed.

Lemma for_each_find_all body m name attrs (kids : list node) :
  for_each body (find_all m (Elem name attrs kids)) (Elem name attrs kids)
  = (do kids' <- mapM (visit body m) kids; Ok (Elem name attrs kids')).
Proof. apply (for_each_find_in body m name attrs kids []). Qed.

(** The paths found below an element do not depend on its own name and
    attributes. *)
Lemma for_each_find_all_root body m name attrs name' attrs'
  (kids : list node) :
  for_each body (find_all m (Elem name attrs kids)) (Elem name' attrs' kids)
  = (do kids' <- mapM (visit body m) kids; Ok (Elem name' attrs' kids')).
Proof. apply (for_each_find_in body m name' attrs' kids []). Qed.

(** *** Passes that rewrite attributes *)

Section AttrPass.

Variable m : node -> bool.
Variable body : node -> result node.
Variable g : string -> gmap string str -> gmap string str.

Hypothesis m_text : forall s, m (Text s) = false.
Hypothesis body_found : forall name attrs kids,
    m (Elem name attrs kids) = true ->
    body (Elem name attrs kids) = Ok (Elem name (g name attrs) kids).
Hypothesis g_other : forall name attrs kids,
    m (Elem name attrs kids) = false -> g name attrs = attrs.

Lemma visit_attrs (k : node) : visit body m k = Ok (map_attrs g k).
Proof.
  induction k as [s | name attrs kids IH] using node_ind'; unfold visit.
  - by rewrite m_text.
  - destruct (m (Elem name attrs kids)) eqn:Hm.
    + rewrite body_found by done. cbn [bind].
      rewrite for_each_find_all_root, (mapM_Ok _ _ _ IH). reflexivity.
    + cbn [bind]. rewrite for_each_find_all, (mapM_Ok _ _ _ IH).
      simpl. by rewrite (g_other _ _ _ Hm).
Qed.

Lemma attr_pass (soup : node) :
  for_each body (find_all m soup) soup = Ok (map_attrs_below g soup).
Proof.
  destruct soup as [s | name attrs kids]; [reflexivity|].
  rewrite for_each_find_all, (mapM_Ok _ (map_attrs g)); [reflexivity|].
  apply Forall_forall. intros k _. apply visit_attrs.
Qed.

End AttrPass.

Lemma get_map_attrs g (p : path) :
  forall n, get (map_attrs g n) p = map_attrs g <$> get n p.
Proof.
  induction p as [|i p IH]; intros [s | name attrs kids]; try reflexivity.
  simpl. rewrite list_lookup_fmap.
  destruct (kids !! i) as [k|]; [apply IH | reflexivity].
Qed.

Lemma get_map_attrs_below g (p : path) (n : node) :
  p <> [] -> get (map_attrs_below g n) p = map_attrs g <$> get n p.
Proof.
  destruct p as [|i p]; [done|]. intros _.
  destruct n as [s | name attrs kids]; [reflexivity|].
  simpl. rewrite list_lookup_fmap.
  destruct (kids !! i) as [k|]; [apply get_map_attrs | reflexivity].
Qed.

Lemma process_images_closed (soup : node) :
  process_images soup = Ok (map_attrs_below img_attrs soup).
Proof.
  apply attr_pass; [done | |].
  - intros name attrs kids Hm. simpl in Hm.
    unfold img_attrs, img_body. rewrite Hm.
    by destruct (attrs !! "src"%string) as [[|c src]|].
  - intros name attrs kids Hm. simpl in Hm.
    unfold img_attrs. by rewrite Hm.
Qed.

Lemma process_links_closed (soup : node) :
  process_links soup = Ok (map_attrs_below a_attrs soup).
Proof.
  apply attr_pass; [done | |].
  - intros name attrs kids [Hname Hhref]%andb_true_iff.
    simpl in Hname, Hhref. apply bool_decide_eq_true in Hhref as [href Hhref].
    unfold a_attrs, a_body, getitem. by rewrite Hname, Hhref.
  - intros name attrs kids Hm. simpl in Hm. unfold a_attrs.
    destruct (String.eqb name "a"); [|done].
    simpl in Hm. apply bool_decide_eq_false in Hm.
    destruct (attrs !! "href"%string) eqn:Hhref; [|done].
    exfalso. apply Hm. eauto.
Qed.

(** *** [os.path] *)

Lemma rfind_absent (c : ascii) (s : str) : c ∉ s -> rfind c s = (-1)%Z.
Proof.
  induction s as [|a s IH]; [reflexivity|].
  intros [Hca Hs]%not_elem_of_cons. simpl. rewrite IH by done. simpl.
  destruct (Ascii.eqb_spec a c); congruence.
Qed.

Lemma rfind_last (c : ascii) (dir base : str) :
  c ∉ base -> rfind c (dir ++ c :: base) = Z.of_nat (length dir).
Proof.
  intros Hbase. induction dir as [|a dir IH]; simpl.
  - rewrite rfind_absent by done. simpl. by rewrite Ascii.eqb_refl.
  - rewrite IH. destruct (Z.ltb_spec (Z.of_nat (length dir)) 0); lia.
Qed.

Lemma basename_plain (base : str) : SLASH ∉ base -> basename base = base.
Proof. intros H. unfold basename. by rewrite rfind_absent. Qed.

Lemma basename_dir (dir base : str) :
  SLASH ∉ base -> basename (dir ++ SLASH :: base) = base.
Proof.
  intros H. unfold basename. rewrite rfind_last by done.
  replace (Z.to_nat (Z.of_nat (length dir) + 1)) with (length dir + 1) by lia.
  rewrite <- drop_drop, drop_app_length. reflexivity.
Qed.

Lemma basename_no_slash (p : str) : SLASH ∉ basename p.
Proof.
  destruct (decide (SLASH ∈ p)) as [Hin | Hout].
  - apply list_elem_of_split_r in Hin as (dir & base & -> & Hbase).
    by rewrite basename_dir.
  - by rewrite basename_plain.
Qed.

Lemma path_join_images (b : str) :
  SLASH ∉ b -> path_join (chars "images") b = chars "images/" ++ b.
Proof.
  intros Hb. unfold path_join.
  rewrite bool_decide_eq_false_2; [reflexivity|].
  destruct b as [|c b]; [discriminate|]. intros [= ->].
  apply Hb, elem_of_cons. by left.
Qed.

(** *** The paragraph pass *)

Lemma collapse_breaks_idemp (s : str) :
  collapse_breaks (collapse_breaks s) = collapse_breaks s.
Proof.
  unfold collapse_breaks, replace. rewrite !map_map.
  apply map_ext. intros c.
  destruct (Ascii.eqb_spec c LF) as [->|]; [reflexivity|].
  destruct (Ascii.eqb_spec c CR) as [->|]; [reflexivity|].
  destruct (Ascii.eqb_spec c LF); [done|].
  by destruct (Ascii.eqb_spec c CR).
Qed.

Lemma collapse_collapse (b : bool) (n : node) :
  collapse b (collapse true n) = collapse true n.
Proof.
  revert b; induction n as [s | name attrs kids IH] using node_ind';
    intros b; simpl.
  - destruct b; [by rewrite collapse_breaks_idemp | reflexivity].
  - f_equal. rewrite map_map. apply map_ext_Forall.
    eapply Forall_impl; [exact IH|]. intros k Hk. apply Hk.
Qed.

Lemma is_tag_collapse tag b (n : node) :
  is_tag tag (collapse b n) = is_tag tag n.
Proof. by destruct n. Qed.

Lemma find_all_collapse tag (n : node) :
  forall b, find_all (is_tag tag) (collapse b n) = find_all (is_tag tag) n.
Proof.
  induction n as [s | name attrs kids IH] using node_ind'; intros b;
    [reflexivity|].
  simpl. generalize 0 as i. generalize (b || String.eqb name "p") as b'.
  intros b'. induction IH as [|k kids Hk _ IHkids]; intros i; [reflexivity|].
  simpl. by rewrite is_tag_collapse, Hk, IHkids.
Qed.

Lemma visit_text (k : node) :
  visit text_body is_text k = Ok (collapse true k).
Proof.
  induction k as [s | name attrs kids IH] using node_ind'; [reflexivity|].
  unfold visit. cbn [is_text bind].
  by rewrite for_each_find_all, (mapM_Ok _ _ _ IH).
Qed.

Lemma p_body_closed name attrs (kids : list node) :
  p_body (Elem name attrs kids)
  = Ok (Elem name attrs (map (collapse true) kids)).
Proof.
  unfold p_body. rewrite for_each_find_all, (mapM_Ok _ (collapse true));
    [reflexivity|].
  apply Forall_forall. intros k _. apply visit_text.
Qed.

Lemma mapM_fixed {A : Type} (f : A -> result A) (l : list A) :
  Forall (fun a => f a = Ok a) l -> mapM f l = Ok l.
Proof. intros H. by rewrite (mapM_Ok f id), map_id. Qed.

(** Running the paragraph pass over text that is collapsed already
    changes nothing: a paragraph nested in a paragraph is handled twice
    with the result of handling it once. *)
Lemma visit_p_collapsed (k : node) :
  visit p_body (is_tag "p") (collapse true k) = Ok (collapse true k).
Proof.
  induction k as [s | name attrs kids IH] using node_ind'; [reflexivity|].
  assert (Hkids : mapM (visit p_body (is_tag "p")) (map (collapse true) kids)
                  = Ok (map (collapse true) kids)).
  { apply mapM_fixed, Forall_fmap. exact IH. }
  unfold visit. cbn [collapse orb is_tag].
  destruct (String.eqb name "p").
  - rewrite p_body_closed. cbn [bind].
    assert (map (collapse true) (map (collapse true) kids)
            = map (collapse true) kids) as ->.
    { rewrite map_map. apply map_ext. intros k. apply collapse_collapse. }
    by rewrite for_each_find_all, Hkids.
  - cbn [bind]. by rewrite for_each_find_all, Hkids.
Qed.

Lemma visit_p (k : node) :
  visit p_body (is_tag "p") k = Ok (collapse false k).
Proof.
  induction k as [s | name attrs kids IH] using node_ind'; [reflexivity|].
  unfold visit. cbn [collapse orb is_tag].
  destruct (String.eqb name "p") eqn:Hname.
  - rewrite p_body_closed. cbn [bind].
    pose proof (find_all_collapse "p" (Elem name attrs kids) true) as Hfind.
    cbn [collapse orb] in Hfind. rewrite <- Hfind.
    rewrite for_each_find_all, mapM_fixed; [reflexivity|].
    apply Forall_fmap, Forall_forall. intros k _. apply visit_p_collapsed.
  - cbn [bind]. by rewrite for_each_find_all, (mapM_Ok _ _ _ IH).
Qed.

Lemma remove_line_breaks_closed (soup : node) :
  remove_line_breaks_within_paragraphs soup = Ok (collapse_below soup).
Proof.
  destruct soup as [s | name attrs kids]; [reflexivity|].
  unfold remove_line_breaks_within_paragraphs.
  rewrite for_each_find_all, (mapM_Ok _ (collapse false)); [reflexivity|].
  apply Forall_forall. intros k _. apply visit_p.
Qed.

(** *** [clean_google_url] against the pattern of the specification *)

Lemma q_url_at_suffix (pre t scheme rest tail : str) :
  q_url_at t [] scheme rest tail -> q_url_at (pre ++ t) pre scheme rest tail.
Proof.
  intros (-> & H). split; [reflexivity | exact H].
Qed.

Lemma q_url_at_prefix (url pre scheme rest tail : str) :
  q_url_at url pre scheme rest tail ->
  exists t, url = pre ++ t /\ q_url_at t [] scheme rest tail.
Proof.
  intros (-> & H). eexists. split; [reflexivity|]. split; [reflexivity | exact H].
Qed.

Lemma clean_google_url_match (url pre scheme rest tail : str) :
  q_url_at url pre scheme rest tail ->
  (forall pre' scheme' rest' tail',
      q_url_at url pre' scheme' rest' tail' -> length pre <= length pre') ->
  clean_google_url url = scheme ++ chars "://" ++ rest.
Proof.
  intros Hat Hfirst. unfold clean_google_url.
  destruct (q_url_at_prefix _ _ _ _ _ Hat) as (t & -> & Ht).
  assert (re_search q_match (pre ++ t) = Some (scheme ++ chars "://" ++ rest))
    as ->; [|reflexivity].
  apply re_search_Some. exists pre, t. split_and!; [done | |].
  - apply q_match_Some. eauto.
  - intros pre' t' Hsplit Hlen.
    destruct (q_match t') as [g|] eqn:Hm; [|reflexivity].
    apply q_match_Some in Hm as (sch' & rest' & tail' & Hat' & _).
    apply (q_url_at_suffix pre') in Hat'. rewrite <- Hsplit in Hat'.
    apply Hfirst in Hat'. lia.
Qed.

Lemma clean_google_url_no_match (url : str) :
  (forall pre scheme rest tail, ~ q_url_at url pre scheme rest tail) ->
  clean_google_url url = url.
Proof.
  intros Hno. unfold clean_google_url.
  assert (re_search q_match url = None) as ->; [|reflexivity].
  apply re_search_None. intros pre t ->.
  destruct (q_match t) as [g|] eqn:Hm; [|reflexivity].
  apply q_match_Some in Hm as (sch & rest & tail & Hat & _).
  apply (q_url_at_suffix pre) in Hat. by apply Hno in Hat.
Qed.

Lemma clean_google_url_changes (url : str) :
  clean_google_url url <> url <->
  exists pre scheme rest tail, q_url_at url pre scheme rest tail.
Proof.
  split.
  - intros Hne.
    destruct (re_search q_match url) as [g|] eqn:Hs.
    + apply re_search_Some in Hs as (pre & t & -> & Hm & _).
      apply q_match_Some in Hm as (sch & rest & tail & Hat & _).
      exists pre, sch, rest, tail. by apply q_url_at_suffix.
    + exfalso. apply Hne. unfold clean_google_url. by rewrite Hs.
  - intros (pre & sch & rest & tail & Hat).
    unfold clean_google_url.
    destruct (re_search q_match url) as [g|] eqn:Hs.
    + apply re_search_Some in Hs as (pre' & t' & -> & Hm & _).
      apply q_match_Some in Hm as (sch' & rest' & tail' & (-> & _) & ->).
      intros Heq. apply (f_equal length) in Heq.
      rewrite !length_app in Heq. simpl in Heq. lia.
    + destruct (q_url_at_prefix _ _ _ _ _ Hat) as (t & -> & Ht).
      rewrite re_search_None in Hs. specialize (Hs pre t eq_refl).
      assert (q_match t = Some (sch ++ chars "://" ++ rest)) as Hm
        by (apply q_match_Some; eauto).
      congruence.
Qed.

(** *** Text nodes inside and outside paragraphs *)

Lemma below_p_true (p : path) :
  forall n,
    below_p n p = true <->
    exists (p1 p2 : path) attrs kids,
      p = p1 ++ p2 /\ p2 <> [] /\ get n p1 = Some (Elem "p" attrs kids).
Proof.
  induction p as [|i p IH]; intros n.
  - split; [discriminate|].
    intros (p1 & p2 & attrs & kids & Hp & Hp2 & _).
    symmetry in Hp. by apply app_eq_nil in Hp as [_ ->].
  - cbn [below_p]. split.
    + intros [Htag | Hbelow]%orb_true_iff.
      * destruct n as [s | name attrs kids]; [discriminate|].
        simpl in Htag. apply String.eqb_eq in Htag as ->.
        by exists [], (i :: p), attrs, kids.
      * destruct n as [s | name attrs kids]; [discriminate|].
        destruct (kids !! i) as [k|] eqn:Hk; [|discriminate].
        apply IH in Hbelow as (p1 & p2 & attrs' & kids' & -> & Hp2 & Hget).
        exists (i :: p1), p2, attrs', kids'.
        split_and!; [done | done |]. simpl. by rewrite Hk.
    + intros (p1 & p2 & attrs' & kids' & Hp & Hp2 & Hget).
      destruct p1 as [|j p1].
      * simpl in Hget. injection Hget as ->. reflexivity.
      * simpl in Hp. injection Hp as <- ->.
        destruct n as [s | name attrs kids]; [discriminate|].
        simpl in Hget. destruct (kids !! i) as [k|] eqn:Hk; [|discriminate].
        apply orb_true_iff. right. apply IH. eauto 10.
Qed.

Lemma inside_p_true (soup : node) (p : path) :
  inside_p soup p = true <-> in_paragraph soup p.
Proof.
  unfold inside_p, in_paragraph. split.
  - destruct p as [|i p]; [discriminate|].
    destruct soup as [s | name attrs kids]; [discriminate|].
    destruct (kids !! i) as [k|] eqn:Hk; [|discriminate].
    intros (p1 & p2 & attrs' & kids' & -> & Hp2 & Hget)%below_p_true.
    exists (i :: p1), p2, attrs', kids'.
    split_and!; [done | done | done |]. simpl. by rewrite Hk.
  - intros (p1 & p2 & attrs' & kids' & -> & Hp1 & Hp2 & Hget).
    destruct p1 as [|i p1]; [done|].
    destruct soup as [s | name attrs kids]; [discriminate|].
    simpl in Hget |- *. destruct (kids !! i) as [k|]; [|discriminate].
    apply below_p_true. eauto 10.
Qed.

Lemma get_collapse (p : path) :
  forall (n : node) (b : bool) (s : str),
    get n p = Some (Text s) ->
    get (collapse b n) p
    = Some (Text (if b || below_p n p then collapse_breaks s else s)).
Proof.
  induction p as [|i p IH]; intros n b s Hget.
  - simpl in Hget. injection Hget as ->. simpl. by rewrite orb_false_r.
  - destruct n as [t | name attrs kids]; [discriminate|].
    simpl in Hget |- *. rewrite list_lookup_fmap.
    destruct (kids !! i) as [k|]; [|discriminate]. simpl.
    rewrite (IH _ _ _ Hget). by rewrite orb_assoc.
Qed.

Lemma get_collapse_below (soup : node) (p : path) (s : str) :
  get soup p = Some (Text s) ->
  get (collapse_below soup) p
  = Some (Text (if inside_p soup p then collapse_breaks s else s)).
Proof.
  destruct p as [|i p].
  - simpl. by intros [= ->].
  - destruct soup as [t | name attrs kids]; [discriminate|].
    simpl. rewrite list_lookup_fmap.
    destruct (kids !! i) as [k|]; [|discriminate]. simpl.
    intros Hget. by rewrite (get_collapse _ _ false _ Hget).
Qed.

Lemma collapse_breaks_lookup (s : str) (i : nat) :
  collapse_breaks s !! i
  = (fun c => if Ascii.eqb c LF || Ascii.eqb c CR then SP else c) <$> s !! i.
Proof.
  unfold collapse_breaks, replace. rewrite !list_lookup_fmap.
  destruct (s !! i) as [c|]; [|reflexivity]. simpl. f_equal.
  destruct (Ascii.eqb_spec c LF) as [->|]; [reflexivity|].
  by destruct (Ascii.eqb_spec c CR).
Qed.

(** * Properties of the checks of [tomdtopdf.py] *)

Lemma is_empty_falsy (v : pyval) : is_empty v -> truthy v = false.
Proof. by intros [-> | [-> | [-> | ->]]]. Qed.

(** The field check either returns silently or prints one message and
    exits with status 1. *)
Lemma check_fields_cases (fields : list string) (metadata : gmap string pyval) :
  check_fields fields metadata = ([], Returned tt)
  \/ exists msg, check_fields fields metadata = ([Printed msg], Exited 1%Z).
Proof.
  induction fields as [|field fields IH]; [by left|].
  cbn [check_fields].
  destruct (match metadata !! field with
            | None => true
            | Some v => negb (truthy v)
            end).
  - right. eexists. reflexivity.
  - destruct IH as [-> | [msg ->]]; [by left | right; by eexists].
Qed.

Lemma check_fields_missing (fields : list string)
  (metadata : gmap string pyval) (field : string) :
  field ∈ fields ->
  match metadata !! field with
  | None => True
  | Some v => truthy v = false
  end ->
  exists msg, check_fields fields metadata = ([Printed msg], Exited 1%Z).
Proof.
  intros Hin Hbad. induction fields as [|f fields IH].
  - by apply elem_of_nil in Hin.
  - cbn [check_fields].
    destruct (match metadata !! f with
              | None => true
              | Some v => negb (truthy v)
              end) eqn:Hf.
    + eexists. reflexivity.
    + apply elem_of_cons in Hin as [-> | Hin].
      * destruct (metadata !! f) as [v|]; [|discriminate].
        rewrite Hbad in Hf. discriminate.
      * destruct (IH Hin) as [msg ->]. by eexists.
Qed.

Lemma content_check_rejects (content : str) :
  content = []
  \/ (forall line, line ∈ split_lines content ->
                 startswith (chars "#") (strip line) = false) ->
  exists msg, content_check content = ([Printed msg], Exited 1%Z).
Proof.
  intros Hbad. unfold content_check.
  destruct content as [|c content]; [eexists; reflexivity|].
  destruct Hbad as [? | Hlines]; [discriminate|].
  assert (existsb (fun line => startswith (chars "#") (strip line))
            (split_lines (c :: content)) = false) as ->.
  { apply not_true_is_false. intros (line & Hin & Hline)%existsb_exists.
    apply list_elem_of_In in Hin. rewrite (Hlines line Hin) in Hline.
    discriminate. }
  eexists. reflexivity.
Qed.

(** * The statements of the specification *)

Lemma promote_lines_none (s : str) :
  (forall line, line ∈ split_lines s -> head line <> Some HASH) ->
  promote_lines s = s.
Proof.
  intros Hlines. unfold promote_lines.
  rewrite <- (join_split_lines s) at 2. f_equal.
  rewrite <- (map_id (split_lines s)) at 2.
  apply map_ext_Forall, Forall_forall. intros line Hin.
  specialize (Hlines line Hin). destruct line as [|c line]; [reflexivity|].
  simpl. destruct (Ascii.eqb_spec c HASH) as [->|]; [done | reflexivity].
Qed.

(** C1 (the code departs from the specification).  The pattern of
    [ensure_space_before_links] asks for a word boundary in front of the
    character that precedes the bracket, and looks for ['!'] one character
    too early.  So a word of two or more letters directly followed by a
    link gets no space: ["Word[link](url)"] is returned as it is, where the
    specification says it becomes ["Word [link](url)"]; and an image that
    follows a word has its marker split off: ["text![alt](img.png)"]
    becomes ["text! [alt](img.png)"].  The two other examples of the
    specification, and a one-letter word in front of a link, behave as it
    says.  ([link_scan_long_word] has the general fact: after a word of
    two or more word characters the bracket follows with no space in
    between.) *)
Theorem space_before_link_misses_words :
  ensure_space_before_links (chars "Word[link](url)") = chars "Word[link](url)"
  /\ ensure_space_before_links (chars "text![alt](img.png)")
     = chars "text! [alt](img.png)"
  /\ ensure_space_before_links (chars "![alt](img.png)")
     = chars "![alt](img.png)"
  /\ ensure_space_before_links (chars "Word [link](url)")
     = chars "Word [link](url)"
  /\ ensure_space_before_links (chars "a[link](url)") = chars "a [link](url)".
Proof. repeat split; reflexivity. Qed.

(** C5.  [increase_heading_levels] puts exactly one ['#'] in front of every
    line that begins with ['#'] and changes nothing else: the result is the
    lines of the text, each promoted on its own, joined again.  Only the
    start of a line is matched, a line of six ['#'] becomes one of seven
    (no clamping), and ["# Title\n## Sub"] becomes ["## Title\n### Sub"]. *)
Theorem heading_promotion (s : str) :
  increase_heading_levels s = join_lines (map promote_line (split_lines s))
  /\ join_lines (split_lines s) = s
  /\ (forall line, promote_line (HASH :: line) = HASH :: HASH :: line)
  /\ (forall c line,
         promote_line (c :: line)
         = if Ascii.eqb c HASH then HASH :: c :: line else c :: line)
  /\ promote_line [] = []
  /\ increase_heading_levels (chars "###### six") = chars "####### six"
  /\ increase_heading_levels (chars "a # b ## c") = chars "a # b ## c"
  /\ increase_heading_levels (chars "# Title" ++ LF :: chars "## Sub")
     = chars "## Title" ++ LF :: chars "### Sub".
Proof.
  split; [apply increase_heading_levels_lines|].
  split; [apply join_split_lines|].
  repeat split; reflexivity.
Qed.

(** C8.  Heading promotion is not idempotent: applied twice to ["# T"] it
    gives a text other than applied once.  Each application makes the text
    longer by one character per line that begins with ['#'], and leaves
    the number of such lines as it was. *)
Theorem heading_promotion_not_idempotent :
  (exists s,
      0 < heading_lines true s
      /\ increase_heading_levels (increase_heading_levels s)
         <> increase_heading_levels s)
  /\ (forall s,
         length (increase_heading_levels s) = heading_lines true s + length s
         /\ heading_lines true (increase_heading_levels s)
            = heading_lines true s).
Proof.
  split.
  - exists (chars "# T"). split; [simpl; lia | discriminate].
  - intros s. unfold increase_heading_levels, re_sub.
    rewrite (heading_scan (S (length s))) by lia.
    split; [apply promote_from_length | apply promote_from_heading_lines].
Qed.

(** C9.  [clean_google_url] rewrites a URL exactly when the pattern
    [q=<http-or-https URL>] occurs somewhere in it.  The [q] need not be a
    parameter of its own: in [freq_url], which is
    ["https://host/?freq=https://x.com&a=1"], the pattern starts inside
    [freq], and the URL becomes ["https://x.com"]. *)
Theorem link_cleanup_substring :
  (forall url,
      clean_google_url url <> url <->
      exists pre scheme rest tail, q_url_at url pre scheme rest tail)
  /\ q_url_at freq_url
       (chars "https://host/?fre") (chars "https") (chars "x.com")
       (chars "&a=1")
  /\ clean_google_url freq_url = chars "https://x.com".
Proof.
  split; [apply clean_google_url_changes|].
  split; [|reflexivity].
  split_and!; [reflexivity | by right | discriminate | | right; by eexists].
  by apply (bool_decide_unpack _).
Qed.

(** Both directions at work: the URL with [freq] is rewritten because the
    pattern occurs in it. *)
Lemma link_cleanup_substring_witness :
  (exists pre scheme rest tail, q_url_at freq_url pre scheme rest tail)
  /\ clean_google_url freq_url <> freq_url.
Proof.
  destruct link_cleanup_substring as (Hiff & Hat & _).
  assert (exists pre scheme rest tail, q_url_at freq_url pre scheme rest tail)
    as Hex by (do 4 eexists; exact Hat).
  split; [exact Hex | by apply Hiff].
Defined.

(** C2.  The paragraph pass never fails.  A text node of the soup that is
    contained in a paragraph element has every line feed and every carriage
    return replaced by one space, character by character (the text keeps
    its length, all other characters stay); a text node that is in no
    paragraph is left as it is.  ["Hello\nWorld\r\n!"] becomes
    ["Hello World  !"], with two spaces. *)
Theorem paragraph_line_breaks :
  (forall soup p s,
      get soup p = Some (Text s) ->
      exists soup',
        remove_line_breaks_within_paragraphs soup = Ok soup'
        /\ (in_paragraph soup p ->
            get soup' p = Some (Text (collapse_breaks s)))
        /\ (~ in_paragraph soup p -> get soup' p = Some (Text s)))
  /\ (forall s i,
         collapse_breaks s !! i
         = (fun c => if Ascii.eqb c LF || Ascii.eqb c CR then SP else c)
             <$> s !! i)
  /\ (forall s, length (collapse_breaks s) = length s)
  /\ collapse_breaks (chars "Hello" ++ LF :: chars "World" ++ CR :: LF :: chars "!")
     = chars "Hello World  !".
Proof.
  split_and!; [| apply collapse_breaks_lookup | | reflexivity].
  - intros soup p s Hget. exists (collapse_below soup).
    split; [apply remove_line_breaks_closed|].
    rewrite (get_collapse_below _ _ _ Hget).
    split; intros Hin.
    + apply inside_p_true in Hin. by rewrite Hin.
    + destruct (inside_p soup p) eqn:Hp; [|reflexivity].
      by apply inside_p_true in Hp.
  - intros s. unfold collapse_breaks, replace. by rewrite !length_map.
Qed.

(** The paragraph of the specification next to a heading: the text of the
    paragraph is collapsed, the text of the heading is not. *)
Lemma paragraph_line_breaks_witness :
  exists soup',
    remove_line_breaks_within_paragraphs hello_soup = Ok soup'
    /\ get soup' [0; 0] = Some (Text (chars "Hello World  !"))
    /\ get soup' [1; 0] = Some (Text (chars "A" ++ [LF] ++ chars "B")).
Proof.
  destruct (proj1 paragraph_line_breaks hello_soup [0; 0] _ eq_refl)
    as (soup' & Hrun & Hin & _).
  destruct (proj1 paragraph_line_breaks hello_soup [1; 0] _ eq_refl)
    as (soup2 & Hrun2 & _ & Hout).
  rewrite Hrun in Hrun2. injection Hrun2 as <-.
  exists soup'. split_and!; [done | |].
  - apply Hin. by exists [0], [0], ∅, [Text (chars "Hello" ++ LF :: chars "World" ++ CR :: LF :: chars "!")].
  - apply Hout. intros Hin'%inside_p_true. discriminate.
Defined.

(** C3, as the specification states it, fails for a scheme other than
    [http] and [https]: in [ftp_url] the pattern
    [q=<scheme>://<rest-up-to-next-&>] occurs with the scheme [ftp], and
    the URL is returned as it is, not replaced by
    ["ftp://example.com/file"].  (Nor is a URL rewritten in which nothing
    stands between [://] and the next ['&'], and of two occurrences the
    first decides.) *)
Lemma link_cleanup_other_scheme :
  ftp_url
  = chars "https://www.google.com/url?" ++ chars "q=" ++ chars "ftp"
    ++ chars "://" ++ chars "example.com/file" ++ chars "&other=1"
  /\ (AMP ∉ chars "example.com/file")
  /\ clean_google_url ftp_url = ftp_url
  /\ ftp_url <> chars "ftp" ++ chars "://" ++ chars "example.com/file"
  /\ get ftp_soup [0]
     = Some (Elem "a" {[ "href"%string := ftp_url ]} [Text (chars "file")])
  /\ process_links ftp_soup = Ok ftp_soup
  /\ clean_google_url (chars "https://host/?q=http://&x=1")
     = chars "https://host/?q=http://&x=1"
  /\ clean_google_url (chars "https://host/?q=http://a?q=http://b&c=1")
     = chars "http://a?q=http://b".
Proof.
  split_and!; [reflexivity | by apply (bool_decide_unpack _)
              | reflexivity | discriminate | reflexivity | reflexivity
              | reflexivity | reflexivity].
Qed.

(** C3 (amended).  The link pass never fails.  A hyperlink element with an
    [href] gets [clean_google_url] of it as its new [href].  When the
    pattern [q=<scheme>://<rest-up-to-next-&>] occurs in the URL with the
    scheme [http] or [https] and a non-empty rest, that is the text from
    the scheme to the end of [rest] of the first occurrence, taken as it
    stands, with no decoding; when the pattern does not occur so, it is
    the URL itself. *)
Theorem link_cleanup :
  (forall soup p attrs kids href,
      p <> [] ->
      get soup p = Some (Elem "a" attrs kids) ->
      attrs !! "href"%string = Some href ->
      exists soup',
        process_links soup = Ok soup'
        /\ get soup' p
           = Some (Elem "a" (<["href"%string := clean_google_url href]> attrs)
                     (map (map_attrs a_attrs) kids)))
  /\ (forall url pre scheme rest tail,
         q_url_at url pre scheme rest tail ->
         (forall pre' scheme' rest' tail',
             q_url_at url pre' scheme' rest' tail' ->
             length pre <= length pre') ->
         clean_google_url url = scheme ++ chars "://" ++ rest)
  /\ (forall url,
         (forall pre scheme rest tail, ~ q_url_at url pre scheme rest tail) ->
         clean_google_url url = url)
  /\ clean_google_url
       (chars "https://www.google.com/url?q=https://example.com/page&other=1")
     = chars "https://example.com/page".
Proof.
  split_and!; [| apply clean_google_url_match
               | apply clean_google_url_no_match | reflexivity].
  intros soup p attrs kids href Hp Hget Hhref.
  exists (map_attrs_below a_attrs soup).
  split; [apply process_links_closed|].
  rewrite get_map_attrs_below, Hget by done.
  simpl. unfold a_attrs at 1. simpl. by rewrite Hhref.
Qed.

(** The redirect of the specification, and a URL without the pattern. *)
Lemma link_cleanup_witness :
  (exists soup',
      process_links link_soup = Ok soup'
      /\ get soup' [0]
         = Some (Elem "a"
                   (<["href"%string := clean_google_url redirect_url]>
                      {[ "href"%string := redirect_url ]})
                   (map (map_attrs a_attrs) [Text (chars "x")])))
  /\ clean_google_url redirect_url = chars "https" ++ chars "://" ++ chars "example.com/page"
  /\ clean_google_url (chars "https://example.com/?a=1") = chars "https://example.com/?a=1".
Proof.
  destruct link_cleanup as (Htree & Hmatch & Hno & _).
  split_and!.
  - apply Htree; [done | reflexivity | reflexivity].
  - apply (Hmatch _ (chars "https://www.google.com/url?") _ _ (chars "&other=1")).
    + split_and!; [reflexivity | by right | discriminate
                  | by apply (bool_decide_unpack _) | right; by eexists].
    + intros pre' sch' rest' tail' (Hurl & _).
      destruct (decide (length (chars "https://www.google.com/url?") <= length pre'))
        as [|Hlt]; [done|].
      exfalso. apply Nat.nle_gt in Hlt. simpl in Hlt.
      do 27 (destruct pre' as [|? pre']; [discriminate Hurl|];
             simpl in Hurl; injection Hurl as <- Hurl; simpl in Hlt;
             apply Nat.succ_lt_mono in Hlt).
      lia.
  - apply Hno. intros pre sch rest tail Hat.
    assert (Hch : clean_google_url (chars "https://example.com/?a=1")
                  <> chars "https://example.com/?a=1")
      by (apply clean_google_url_changes; eauto).
    by apply Hch.
Defined.

Lemma img_attrs_rewrite (attrs : gmap string str) (src : str) :
  attrs !! "src"%string = Some src -> src <> [] ->
  img_attrs "img" attrs
  = <["src"%string := chars "images/" ++ basename src]> attrs.
Proof.
  intros Hsrc Hne. unfold img_attrs. simpl. rewrite Hsrc.
  destruct src as [|c src]; [done|]. cbv beta iota.
  by rewrite path_join_images by apply basename_no_slash.
Qed.

(** C4, as the specification states it, fails for an image whose [src]
    is there but empty: the pass leaves the empty [src] where the
    specification asks for ["images/"]. *)
Lemma image_rewrite_empty_src :
  get empty_src_soup [0] = Some (Elem "img" {[ "src"%string := [] ]} [])
  /\ process_images empty_src_soup = Ok empty_src_soup
  /\ ({[ "src"%string := [] ]} : gmap string str) !! "src"%string
     <> Some (chars "images/" ++ basename []).
Proof. split_and!; [reflexivity | reflexivity | discriminate]. Qed.

(** C4 (amended).  The image pass never fails.  An image element whose
    [src] is present and not empty gets ["images/"] followed by the
    basename of the old value as its new [src]; an image element without a
    [src] keeps its attributes.  The basename is the part after the last
    ['/'] (the whole text when there is none), found in the text alone.
    Children of the element, if any, are passed over in the same way. *)
Theorem image_rewrite :
  (forall soup p attrs kids src,
      p <> [] ->
      get soup p = Some (Elem "img" attrs kids) ->
      attrs !! "src"%string = Some src ->
      src <> [] ->
      exists soup',
        process_images soup = Ok soup'
        /\ get soup' p
           = Some (Elem "img"
                     (<["src"%string := chars "images/" ++ basename src]> attrs)
                     (map (map_attrs img_attrs) kids)))
  /\ (forall soup p attrs kids,
         p <> [] ->
         get soup p = Some (Elem "img" attrs kids) ->
         attrs !! "src"%string = None ->
         exists soup',
           process_images soup = Ok soup'
           /\ get soup' p
              = Some (Elem "img" attrs (map (map_attrs img_attrs) kids)))
  /\ (forall dir base,
         SLASH ∉ base ->
         basename (dir ++ SLASH :: base) = base /\ basename base = base)
  /\ chars "images/" ++ basename (chars "/any/path/photo.png")
     = chars "images/photo.png".
Proof.
  split_and!; [| | | reflexivity].
  - intros soup p attrs kids src Hp Hget Hsrc Hne.
    exists (map_attrs_below img_attrs soup).
    split; [apply process_images_closed|].
    rewrite get_map_attrs_below, Hget by done.
    simpl. by rewrite (img_attrs_rewrite _ _ Hsrc Hne).
  - intros soup p attrs kids Hp Hget Hsrc.
    exists (map_attrs_below img_attrs soup).
    split; [apply process_images_closed|].
    rewrite get_map_attrs_below, Hget by done.
    simpl. unfold img_attrs at 1. simpl. by rewrite Hsrc.
  - intros dir base Hbase.
    split; [by apply basename_dir | by apply basename_plain].
Qed.

(** An image with a path as [src] next to one without [src]. *)
Lemma image_rewrite_witness :
  (exists soup',
      process_images photo_soup = Ok soup'
      /\ get soup' [0; 0]
         = Some (Elem "img"
                   (<["src"%string := chars "images/" ++ basename (chars "/a/b/photo.png")]>
                      {[ "src"%string := chars "/a/b/photo.png" ]})
                   (map (map_attrs img_attrs) [])))
  /\ (exists soup',
         process_images photo_soup = Ok soup'
         /\ get soup' [0; 1]
            = Some (Elem "img" {[ "alt"%string := chars "logo" ]}
                      (map (map_attrs img_attrs) [])))
  /\ basename (chars "/a/b" ++ SLASH :: chars "photo.png") = chars "photo.png"
  /\ basename (chars "photo.png") = chars "photo.png".
Proof.
  destruct image_rewrite as (Hsrc & Hnone & Hbase & _).
  split; [|split].
  - apply Hsrc; [done | reflexivity | reflexivity | done].
  - apply Hnone; [done | reflexivity | reflexivity].
  - apply Hbase. by apply (bool_decide_unpack _).
Defined.

(** C10.  An image element whose [src] is present but empty keeps its
    attributes: the pass rewrites the [src] of an element only when the
    value is not empty, not whenever the attribute exists.  An image
    element has no children, and then the node as a whole is the same
    after the pass. *)
Theorem image_empty_src_unchanged (soup : node) (p : path)
  (attrs : gmap string str) (kids : list node) :
  p <> [] ->
  get soup p = Some (Elem "img" attrs kids) ->
  attrs !! "src"%string = Some [] ->
  (exists soup',
      process_images soup = Ok soup'
      /\ get soup' p = Some (Elem "img" attrs (map (map_attrs img_attrs) kids))
      /\ (kids = [] -> get soup' p = get soup p))
  /\ (forall name attrs' kids',
         img_body (Elem name attrs' kids') <> Ok (Elem name attrs' kids') ->
         exists c src, attrs' !! "src"%string = Some (c :: src)).
Proof.
  intros Hp Hget Hsrc. split.
  - exists (map_attrs_below img_attrs soup).
    split; [apply process_images_closed|].
    rewrite get_map_attrs_below, Hget by done.
    assert (img_attrs "img" attrs = attrs) as Hsame
      by (unfold img_attrs; simpl; by rewrite Hsrc).
    simpl. rewrite Hsame.
    split; [reflexivity | by intros ->].
  - intros name attrs' kids' Hbody. unfold img_body in Hbody.
    destruct (attrs' !! "src"%string) as [[|c src]|]; [done | eauto | done].
Qed.

(** The document with the one image whose [src] is empty. *)
Lemma image_empty_src_unchanged_witness :
  (exists soup',
      process_images empty_src_soup = Ok soup'
      /\ get soup' [0]
         = Some (Elem "img" {[ "src"%string := [] ]}
                   (map (map_attrs img_attrs) []))
      /\ (@nil node = [] -> get soup' [0] = get empty_src_soup [0]))
  /\ (forall name attrs' kids',
         img_body (Elem name attrs' kids') <> Ok (Elem name attrs' kids') ->
         exists c src, attrs' !! "src"%string = Some (c :: src)).
Proof.
  apply (image_empty_src_unchanged empty_src_soup [0]);
    [done | reflexivity | reflexivity].
Defined.

(** C6.  No step of the normalisation raises: whatever the tree and
    whatever text the serialiser gives, [convert_html_to_md] comes to its
    end with a text.  Where the shape a step looks for is absent, the step
    changes nothing: an image element without [src] keeps its attributes,
    a URL in which the pattern does not occur is returned as it is, a text
    with no line that begins with ['#'] and a text without ['['] are
    returned as they are. *)
Theorem pipeline_total :
  (forall markdownify soup,
      convert_html_to_md markdownify soup
      = Ok (ensure_space_before_links
              (increase_heading_levels
                 (markdownify
                    (collapse_below
                       (map_attrs_below a_attrs
                          (map_attrs_below img_attrs soup)))))))
  /\ (forall soup p attrs kids,
         p <> [] ->
         get soup p = Some (Elem "img" attrs kids) ->
         attrs !! "src"%string = None ->
         exists soup',
           process_images soup = Ok soup'
           /\ get soup' p
              = Some (Elem "img" attrs (map (map_attrs img_attrs) kids)))
  /\ (forall href,
         (forall pre scheme rest tail, ~ q_url_at href pre scheme rest tail) ->
         clean_google_url href = href)
  /\ (forall s,
         (forall line, line ∈ split_lines s -> head line <> Some HASH) ->
         increase_heading_levels s = s)
  /\ (forall s, LBRACKET ∉ s -> ensure_space_before_links s = s).
Proof.
  split_and!.
  - intros markdownify soup. unfold convert_html_to_md.
    rewrite process_images_closed. cbn [bind].
    rewrite process_links_closed. cbn [bind].
    rewrite remove_line_breaks_closed. reflexivity.
  - intros soup p attrs kids Hp Hget Hsrc.
    exists (map_attrs_below img_attrs soup).
    split; [apply process_images_closed|].
    rewrite get_map_attrs_below, Hget by done.
    simpl. unfold img_attrs at 1. simpl. by rewrite Hsrc.
  - apply clean_google_url_no_match.
  - intros s Hlines. rewrite increase_heading_levels_lines.
    by apply promote_lines_none.
  - intros s Hs. by apply link_scan_no_bracket.
Qed.

(** A document and texts in which none of the shapes occurs. *)
Lemma pipeline_total_witness :
  (exists soup',
      process_images plain_soup = Ok soup'
      /\ get soup' [0]
         = Some (Elem "img" {[ "alt"%string := chars "logo" ]}
                   (map (map_attrs img_attrs) [])))
  /\ clean_google_url (chars "https://example.com/")
     = chars "https://example.com/"
  /\ increase_heading_levels (chars "no heading" ++ LF :: chars "a # b")
     = chars "no heading" ++ LF :: chars "a # b"
  /\ ensure_space_before_links (chars "plain text") = chars "plain text".
Proof.
  destruct pipeline_total as (_ & Himg & Hurl & Hhead & Hlink).
  split_and!.
  - apply Himg; [done | reflexivity | reflexivity].
  - apply Hurl. intros pre sch rest tail Hat.
    assert (Hch : clean_google_url (chars "https://example.com/")
                  <> chars "https://example.com/")
      by (apply clean_google_url_changes; eauto).
    by apply Hch.
  - apply Hhead. intros line Hin.
    vm_compute in Hin. apply elem_of_cons in Hin as [-> | Hin]; [done|].
    apply list_elem_of_singleton in Hin as ->. done.
  - apply Hlink. by apply (bool_decide_unpack _).
Defined.

(** C7.  In the Markdown-to-PDF tool, a metadata mapping in which one of
    [title], [version], [date_modified], [pdf_filename] is missing or has
    an empty value makes the process print one message and exit with
    status 1, before the conversion to HTML is started; and a content that
    is empty, or has no line whose stripped form starts with ['#'], makes
    it print one message and exit with status 1 before anything is
    converted or rendered. *)
Theorem checks_exit :
  (forall render_html write_pdf template_location metadata content field,
      field ∈ required_fields ->
      metadata !! field = None
      \/ (exists v, metadata !! field = Some v /\ is_empty v) ->
      exists msg,
        main render_html write_pdf template_location metadata content
        = ([Printed msg], Exited 1%Z))
  /\ (forall render_html write_pdf template_location metadata content,
         content = []
         \/ (forall line, line ∈ split_lines content ->
                        startswith (chars "#") (strip line) = false) ->
         exists msg,
           main render_html write_pdf template_location metadata content
           = ([Printed msg], Exited 1%Z))
  /\ required_fields
     = ["title"; "version"; "date_modified"; "pdf_filename"]%string.
Proof.
  split_and!; [| | reflexivity].
  - intros render_html write_pdf tl metadata content field Hin Hbad.
    destruct (check_fields_missing required_fields metadata field Hin)
      as [msg Hmsg].
    { destruct Hbad as [-> | (v & -> & Hv)]; [done | by apply is_empty_falsy]. }
    exists msg. unfold main, field_check. by rewrite Hmsg.
  - intros render_html write_pdf tl metadata content Hbad.
    destruct (content_check_rejects content Hbad) as [msg Hmsg].
    unfold main, field_check.
    destruct (check_fields_cases required_fields metadata) as [-> | [msg' ->]].
    + exists msg. cbn [seq]. by rewrite Hmsg.
    + by exists msg'.
Qed.

(** The front matter of the tests with its title removed, and the content
    ["Hello, World!"] of the tests. *)
Lemma checks_exit_witness :
  (exists msg,
      main (fun _ _ _ => inr ([], [])) (fun _ _ => None) (chars "template.html")
        no_title (chars "# Test Content")
      = ([Printed msg], Exited 1%Z))
  /\ (exists msg,
         main (fun _ _ _ => inr ([], [])) (fun _ _ => None) (chars "template.html")
           full_metadata (chars "Hello, World!")
         = ([Printed msg], Exited 1%Z)).
Proof.
  destruct checks_exit as (Hfield & Hcontent & _).
  split.
  - apply (Hfield _ _ _ _ _ "title"%string).
    + by apply (bool_decide_unpack _).
    + by left.
  - apply Hcontent. right. intros line Hin.
    vm_compute in Hin. by apply list_elem_of_singleton in Hin as ->.
Defined.

(** With the front matter and the content of the tests, nothing is printed
    and both the conversion and the rendering take place. *)
Example main_accepts :
  main (fun _ _ _ => inr ([], [])) (fun _ _ => None) (chars "template.html")
    full_metadata (chars "# Test Content")
  = ([Transformed; Rendered], Returned tt).
Proof. reflexivity. Qed.

(** * Further properties of the text steps *)

Lemma link_match_Some (prev : option ascii) (s repl : str) (n : nat) :
  link_match prev s = Some (repl, n) ->
  exists c t,
    s = c :: LBRACKET :: t /\ repl = [c; SP; LBRACKET] /\ n = 2
    /\ is_space c = false.
Proof.
  destruct s as [|c [|b t]]; try discriminate. simpl.
  destruct (not_after_bang prev && word_boundary prev c) eqn:H1;
    [|discriminate].
  destruct (is_space c) eqn:H2; [discriminate|].
  destruct (Ascii.eqb_spec b LBRACKET) as [->|]; [|discriminate].
  simpl. intros [= <- <-]. by exists c, t.
Qed.

(** The pattern looks at the previous character, at the current one and
    at the one after it, and no further. *)
Lemma link_match_head (prev : option ascii) (c : ascii) (t t' : str) :
  head t = head t' ->
  link_match prev (c :: t) = None -> link_match prev (c :: t') = None.
Proof.
  destruct t as [|b t], t' as [|b' t']; try done.
  simpl. by intros [= ->].
Qed.

Lemma link_scan_head (s : str) (prev : option ascii) :
  head (sub_from link_match prev 0 s) = head s.
Proof.
  destruct s as [|c s]; [reflexivity|]. cbn [sub_from].
  destruct (link_match prev (c :: s)) as [[repl n]|] eqn:Hm; [|reflexivity].
  by apply link_match_Some in Hm as (c' & t & [= -> ->] & -> & -> & _).
Qed.

Lemma link_scan_spaced (n : nat) :
  forall (s : str) (prev : option ascii),
    length s < n -> spaced s (sub_from link_match prev 0 s).
Proof.
  induction n as [|n IH]; intros s prev Hlen; [lia|].
  destruct s as [|c s]; [constructor|].
  simpl in Hlen. cbn [sub_from].
  destruct (link_match prev (c :: s)) as [[repl k]|] eqn:Hm.
  - apply link_match_Some in Hm as (c' & t & [= <- ->] & -> & -> & Hc).
    simpl in Hlen. simpl. apply spaced_insert; [done|]. apply IH. lia.
  - apply spaced_keep, IH. lia.
Qed.

Lemma link_scan_idemp (n : nat) :
  forall (s : str) (prev : option ascii),
    length s < n ->
    sub_from link_match prev 0 (sub_from link_match prev 0 s)
    = sub_from link_match prev 0 s.
Proof.
  induction n as [|n IH]; intros s prev Hlen; [lia|].
  destruct s as [|c s]; [reflexivity|].
  simpl in Hlen. cbn [sub_from].
  destruct (link_match prev (c :: s)) as [[repl k]|] eqn:Hm.
  - apply link_match_Some in Hm as (c' & t & [= <- ->] & -> & -> & Hc).
    simpl in Hlen. cbn [app pred sub_from].
    assert (link_match prev (c :: SP :: LBRACKET
                               :: sub_from link_match (Some LBRACKET) 0 t)
            = None) as ->.
    { simpl. by rewrite andb_false_r. }
    assert (link_match (Some c) (SP :: LBRACKET
                                   :: sub_from link_match (Some LBRACKET) 0 t)
            = None) as ->.
    { simpl. by rewrite andb_false_r. }
    assert (link_match (Some SP)
              (LBRACKET :: sub_from link_match (Some LBRACKET) 0 t)
            = None) as ->.
    { destruct (sub_from link_match (Some LBRACKET) 0 t); reflexivity. }
    do 3 f_equal. apply IH. lia.
  - cbn [sub_from].
    rewrite (link_match_head prev c s _ (eq_sym (link_scan_head s (Some c))) Hm).
    f_equal. apply IH. lia.
Qed.

(** X1.  [ensure_space_before_links] only puts spaces in: its result is
    the text with single spaces inserted, each between a character that is
    not whitespace and a ['['] directly behind it.  No character is
    removed, changed or moved, and the text never gets shorter. *)
Theorem ensure_space_only_inserts (s : str) :
  spaced s (ensure_space_before_links s)
  /\ length s <= length (ensure_space_before_links s)
  /\ filter (fun c => c <> SP) (ensure_space_before_links s)
     = filter (fun c => c <> SP) s.
Proof.
  assert (Hsp : spaced s (ensure_space_before_links s))
    by (apply (link_scan_spaced (S (length s))); lia).
  split; [exact Hsp|].
  induction Hsp as [|c s t _ [IHlen IHf]|c s t Hc _ [IHlen IHf]].
  - by split.
  - split; [simpl; lia|]. rewrite !filter_cons. by rewrite IHf.
  - split; [simpl; lia|].
    rewrite (filter_cons _ c (SP :: _)), (filter_cons _ SP).
    rewrite (filter_cons _ c (LBRACKET :: _)).
    rewrite !(filter_cons _ LBRACKET) in *.
    destruct (decide (SP <> SP)) as [?|_]; [done|].
    by rewrite IHf.
Qed.

(** X2.  [ensure_space_before_links] is idempotent: on its own output it
    changes nothing, since a bracket it has put a space in front of no
    longer follows a character that is not whitespace. *)
Theorem ensure_space_idempotent (s : str) :
  ensure_space_before_links (ensure_space_before_links s)
  = ensure_space_before_links s.
Proof. apply (link_scan_idemp (S (length s))). lia. Qed.

Lemma increase_heading_levels_from (s : str) :
  increase_heading_levels s = promote_from true s.
Proof.
  unfold increase_heading_levels, re_sub.
  by rewrite (heading_scan (S (length s))) by lia.
Qed.

Lemma promote_from_app_line (a b : str) (bol : bool) :
  promote_from bol (a ++ LF :: b)
  = promote_from bol a ++ LF :: promote_from true b.
Proof.
  revert bol; induction a as [|c a IH]; intros bol; simpl.
  - by rewrite andb_false_r.
  - rewrite IH. by rewrite <- app_assoc.
Qed.

Lemma split_lines_length (s : str) :
  length (split_lines s) = S (length (filter (fun c => c = LF) s)).
Proof.
  induction s as [|c s IH]; [reflexivity|].
  simpl split_lines. rewrite filter_cons.
  destruct (Ascii.eqb_spec c LF) as [->|Hc].
  - rewrite decide_True by done. simpl. by rewrite IH.
  - rewrite decide_False by done.
    pose proof (split_lines_nonempty s) as Hne.
    destruct (split_lines s) as [|l ls]; [done|]. by rewrite <- IH.
Qed.

Lemma promote_from_line_feeds (s : str) (bol : bool) :
  filter (fun c => c = LF) (promote_from bol s) = filter (fun c => c = LF) s.
Proof.
  revert bol; induction s as [|c s IH]; intros bol; [reflexivity|].
  simpl. rewrite filter_app, !filter_cons, IH.
  destruct (bol && Ascii.eqb c HASH); [|reflexivity].
  rewrite filter_cons, decide_False by discriminate. reflexivity.
Qed.

(** X3.  Heading promotion works line by line: promoting two texts joined
    by a line feed is promoting each and joining the results, and the
    number of lines stays the same. *)
Theorem heading_promotion_by_line (a b : str) :
  increase_heading_levels (a ++ LF :: b)
  = increase_heading_levels a ++ LF :: increase_heading_levels b
  /\ length (split_lines (increase_heading_levels a))
     = length (split_lines a).
Proof.
  rewrite !increase_heading_levels_from. split.
  - apply promote_from_app_line.
  - by rewrite !split_lines_length, promote_from_line_feeds.
Qed.

Lemma demote_promote_from (s : str) (bol : bool) :
  demote_from bol (promote_from bol s) = s.
Proof.
  revert bol; induction s as [|c s IH]; intros bol; [reflexivity|].
  simpl. destruct bol; simpl.
  - destruct (Ascii.eqb_spec c HASH) as [->|Hc]; simpl.
    + change (Ascii.eqb HASH LF) with false. by rewrite IH.
    + apply Ascii.eqb_neq in Hc. rewrite Hc. by rewrite IH.
  - by rewrite IH.
Qed.

(** X4.  Heading promotion loses nothing: two texts with the same
    promoted text are the same text (taking one ['#'] off every line that
    begins with one gives the text back). *)
Theorem heading_promotion_injective (s t : str) :
  increase_heading_levels s = increase_heading_levels t -> s = t.
Proof.
  rewrite !increase_heading_levels_from. intros Heq.
  rewrite <- (demote_promote_from s true), <- (demote_promote_from t true).
  by rewrite Heq.
Qed.

(** Two texts that are promoted alike, written differently. *)
Lemma heading_promotion_injective_witness :
  chars "# a" ++ [LF] ++ chars "b" = chars "# a" ++ LF :: chars "b".
Proof.
  apply (heading_promotion_injective
           (chars "# a" ++ [LF] ++ chars "b") (chars "# a" ++ LF :: chars "b")).
  reflexivity.
Defined.

Lemma promote_from_head (s : str) (bol : bool) :
  head (promote_from bol s) = head s.
Proof.
  destruct s as [|c s]; [reflexivity|]. simpl.
  destruct bol; simpl; [|reflexivity].
  by destruct (Ascii.eqb_spec c HASH) as [->|].
Qed.

Lemma link_match_same_head (prev : option ascii) (c : ascii) (t t' : str) :
  head t = head t' ->
  link_match prev (c :: t) = link_match prev (c :: t').
Proof.
  destruct t as [|b t], t' as [|b' t']; try done.
  simpl. by intros [= ->].
Qed.

Lemma space_heading_scan (n : nat) :
  forall (s : str) (prev : option ascii),
    length s < n ->
    sub_from link_match prev 0 (promote_from (at_line_start prev) s)
    = promote_from (at_line_start prev) (sub_from link_match prev 0 s).
Proof.
  induction n as [|n IH]; intros s prev Hlen; [lia|].
  destruct s as [|c s]; [reflexivity|].
  simpl in Hlen.
  destruct (at_line_start prev && Ascii.eqb c HASH) eqn:Hbol.
  - apply andb_true_iff in Hbol as [Hstart Hc].
    apply Ascii.eqb_eq in Hc as ->.
    assert (Hnone : forall t, link_match prev (HASH :: t) = None).
    { intros [|b t]; [reflexivity|]. simpl.
      destruct prev as [p|]; simpl in Hstart.
      - apply Ascii.eqb_eq in Hstart as ->. reflexivity.
      - reflexivity. }
    cbn [promote_from sub_from]. rewrite Hstart. cbn [andb].
    change (Ascii.eqb HASH HASH) with true. cbn [app sub_from].
    rewrite !Hnone.
    assert (link_match (Some HASH) (HASH :: promote_from (Ascii.eqb HASH LF) s)
            = None) as ->.
    { destruct (promote_from (Ascii.eqb HASH LF) s); reflexivity. }
    cbn [promote_from andb app].
    change (Ascii.eqb HASH HASH) with true. cbn [app].
    do 2 f_equal. apply (IH s (Some HASH)). lia.
  - cbn [promote_from]. rewrite Hbol. cbn [app sub_from].
    rewrite (link_match_same_head prev c _ s (promote_from_head s _)).
    destruct (link_match prev (c :: s)) as [[repl k]|] eqn:Hm.
    + apply link_match_Some in Hm as (c' & t & [= <- ->] & -> & -> & Hc).
      simpl in Hlen.
      assert (Ascii.eqb c LF = false) as Hlf.
      { apply Ascii.eqb_neq. intros ->. discriminate. }
      rewrite Hlf. cbn [promote_from app pred sub_from]. rewrite Hbol, Hlf.
      change (Ascii.eqb SP LF) with false.
      change (Ascii.eqb LBRACKET LF) with false.
      change (Ascii.eqb SP HASH) with false.
      change (Ascii.eqb LBRACKET HASH) with false.
      cbn [andb app]. do 3 f_equal.
      apply (IH t (Some LBRACKET)). lia.
    + cbn [promote_from]. rewrite Hbol. cbn [app]. f_equal.
      apply (IH s (Some c)). lia.
Qed.

Lemma text_steps_commute_scan (s : str) :
  ensure_space_before_links (increase_heading_levels s)
  = increase_heading_levels (ensure_space_before_links s).
Proof.
  rewrite !increase_heading_levels_from.
  apply (space_heading_scan (S (length s)) s None). lia.
Qed.

(** X5.  The two text steps do not depend on their order: putting the
    spaces in after promoting the headings, as [convert_html_to_md] does,
    gives the same text as promoting the headings after putting the spaces
    in. *)
Theorem text_steps_commute (s : str) :
  ensure_space_before_links (increase_heading_levels s)
  = increase_heading_levels (ensure_space_before_links s).
Proof. apply text_steps_commute_scan. Qed.

(** * Further properties of the tree passes *)

(** X6.  [clean_google_url] never makes anything up: it returns the URL
    itself, or a part of it that stands right behind a [q=], begins with
    [http], contains no ['&'] and ends where the URL ends or the next
    ['&'] begins. *)
Theorem clean_google_url_part (url : str) :
  clean_google_url url = url
  \/ exists pre post r,
       url = pre ++ chars "q=" ++ clean_google_url url ++ post
       /\ clean_google_url url = chars "http" ++ r
       /\ (AMP ∉ clean_google_url url)
       /\ (post = [] \/ exists t, post = AMP :: t).
Proof.
  unfold clean_google_url.
  destruct (re_search q_match url) as [g|] eqn:Hs; [right | by left].
  apply re_search_Some in Hs as (pre & t & -> & Hm & _).
  apply q_match_Some in Hm
    as (sch & rest & tail & (-> & Hsch & Hne & Hamp & Htail) & ->).
  exists pre, tail.
  assert (Hsplit : exists r, sch ++ chars "://" ++ rest = chars "http" ++ r
                             /\ (AMP ∉ sch)).
  { destruct Hsch as [-> | ->]; eexists;
      (split; [reflexivity | by apply (bool_decide_unpack _)]). }
  destruct Hsplit as (r & Hr & Hsch').
  exists r. split_and!; [by rewrite <- !app_assoc | done | | done].
  rewrite !not_elem_of_app. split_and!; [done | | done].
  by apply (bool_decide_unpack _).
Qed.

Lemma map_attrs_compose f g (n : node) :
  map_attrs f (map_attrs g n)
  = map_attrs (fun name attrs => f name (g name attrs)) n.
Proof.
  induction n as [s | name attrs kids IH] using node_ind'; [reflexivity|].
  simpl. f_equal. rewrite map_map. by apply map_ext_Forall.
Qed.

Lemma map_attrs_ext f g (n : node) :
  (forall name attrs, f name attrs = g name attrs) ->
  map_attrs f n = map_attrs g n.
Proof.
  intros Hfg.
  induction n as [s | name attrs kids IH] using node_ind'; [reflexivity|].
  simpl. rewrite Hfg. f_equal. by apply map_ext_Forall.
Qed.

Lemma map_attrs_below_compose f g (n : node) :
  map_attrs_below f (map_attrs_below g n)
  = map_attrs_below (fun name attrs => f name (g name attrs)) n.
Proof.
  destruct n as [s | name attrs kids]; [reflexivity|].
  simpl. f_equal. rewrite map_map. apply map_ext. intros k.
  apply map_attrs_compose.
Qed.

Lemma map_attrs_below_ext f g (n : node) :
  (forall name attrs, f name attrs = g name attrs) ->
  map_attrs_below f n = map_attrs_below g n.
Proof.
  intros Hfg. destruct n as [s | name attrs kids]; [reflexivity|].
  simpl. f_equal. apply map_ext. intros k. by apply map_attrs_ext.
Qed.

Lemma map_attrs_above_below f g (n : node) :
  (forall name attrs, f name (g name attrs) = f name attrs) ->
  map_attrs f (map_attrs_below g n) = map_attrs f n.
Proof.
  intros Hfg. destruct n as [s | name attrs kids]; [reflexivity|].
  simpl. f_equal. rewrite map_map. apply map_ext. intros k.
  rewrite map_attrs_compose. by apply map_attrs_ext.
Qed.

Lemma forget_img_attrs (name : string) (attrs : gmap string str) :
  forget "img" "src" name (img_attrs name attrs)
  = forget "img" "src" name attrs.
Proof.
  unfold forget, img_attrs. destruct (String.eqb name "img"); [|reflexivity].
  destruct (attrs !! "src"%string) as [[|c src]|]; try reflexivity.
  apply delete_insert_eq.
Qed.

Lemma forget_a_attrs (name : string) (attrs : gmap string str) :
  forget "a" "href" name (a_attrs name attrs) = forget "a" "href" name attrs.
Proof.
  unfold forget, a_attrs. destruct (String.eqb name "a"); [|reflexivity].
  destruct (attrs !! "href"%string) as [href|]; [|reflexivity].
  apply delete_insert_eq.
Qed.

Lemma img_attrs_src (name : string) (attrs : gmap string str) (src' : str) :
  name = "img"%string ->
  img_attrs name attrs !! "src"%string = Some src' ->
  src' <> [] ->
  exists b, src' = chars "images/" ++ b /\ (SLASH ∉ b).
Proof.
  intros -> Hsrc Hne. unfold img_attrs in Hsrc. simpl in Hsrc.
  destruct (attrs !! "src"%string) as [[|c src]|] eqn:Hold.
  - rewrite Hold in Hsrc. by injection Hsrc as <-.
  - rewrite lookup_insert_eq in Hsrc. injection Hsrc as <-.
    exists (basename (c :: src)).
    split; [|apply basename_no_slash].
    apply path_join_images, basename_no_slash.
  - rewrite Hold in Hsrc. discriminate.
Qed.

Lemma get_map_attrs_name g (p : path) (n : node) name attrs' kids' :
  get (map_attrs g n) p = Some (Elem name attrs' kids') ->
  exists attrs kids,
    get n p = Some (Elem name attrs kids) /\ attrs' = g name attrs.
Proof.
  rewrite get_map_attrs. destruct (get n p) as [[s | nm attrs kids]|];
    try discriminate.
  simpl. intros [= <- <- <-]. eauto.
Qed.

(** X7.  The image pass touches nothing but the [src] of [img] elements:
    with those attributes put aside, the tree after the pass is the tree
    before it.  And after the pass every [src] of an [img] element that is
    not empty is ["images/"] followed by a name without ['/']: all images
    are looked for in the one directory. *)
Theorem image_pass_frame (soup : node) :
  exists soup',
    process_images soup = Ok soup'
    /\ map_attrs (forget "img" "src") soup'
       = map_attrs (forget "img" "src") soup
    /\ forall p attrs' kids' src',
         p <> [] ->
         get soup' p = Some (Elem "img" attrs' kids') ->
         attrs' !! "src"%string = Some src' ->
         src' <> [] ->
         exists b, src' = chars "images/" ++ b /\ (SLASH ∉ b).
Proof.
  exists (map_attrs_below img_attrs soup).
  split; [apply process_images_closed|]. split.
  - apply map_attrs_above_below, forget_img_attrs.
  - intros p attrs' kids' src' Hp Hget Hsrc Hne.
    rewrite get_map_attrs_below in Hget by done.
    rewrite <- get_map_attrs in Hget.
    apply get_map_attrs_name in Hget as (attrs & kids & _ & ->).
    by eapply img_attrs_src.
Qed.

Lemma img_attrs_idemp (name : string) (attrs : gmap string str) :
  img_attrs name (img_attrs name attrs) = img_attrs name attrs.
Proof.
  unfold img_attrs. destruct (String.eqb name "img"); [|reflexivity].
  destruct (attrs !! "src"%string) as [[|c src]|] eqn:Hold;
    [by rewrite Hold | | by rewrite Hold].
  rewrite lookup_insert_eq.
  rewrite (path_join_images (basename (c :: src)))
    by apply basename_no_slash.
  change (chars "images/" ++ basename (c :: src))
    with (chars "images" ++ SLASH :: basename (c :: src)).
  rewrite basename_dir by apply basename_no_slash.
  cbn [chars list_ascii_of_string app].
  by rewrite insert_insert_eq, path_join_images by apply basename_no_slash.
Qed.

(** X8.  The image pass is idempotent: run on its own result it changes
    nothing, since the basename of ["images/<name>"] is [<name>]. *)
Theorem image_pass_idempotent (soup : node) :
  exists soup',
    process_images soup = Ok soup' /\ process_images soup' = Ok soup'.
Proof.
  exists (map_attrs_below img_attrs soup).
  split; [apply process_images_closed|].
  rewrite process_images_closed, map_attrs_below_compose. f_equal.
  apply map_attrs_below_ext, img_attrs_idemp.
Qed.

(** X9.  The link pass touches nothing but the [href] of [a] elements:
    with those attributes put aside, the tree after the pass is the tree
    before it; and an [a] element that has an [href] before the pass has
    one after it. *)
Theorem link_pass_frame (soup : node) :
  exists soup',
    process_links soup = Ok soup'
    /\ map_attrs (forget "a" "href") soup'
       = map_attrs (forget "a" "href") soup
    /\ find_all (fun n => is_tag "a" n && has_attr "href" n) soup'
       = find_all (fun n => is_tag "a" n && has_attr "href" n) soup.
Proof.
  exists (map_attrs_below a_attrs soup).
  split; [apply process_links_closed|]. split.
  - apply map_attrs_above_below, forget_a_attrs.
  - set (m := fun n => is_tag "a" n && has_attr "href" n).
    assert (Hm : forall k, m (map_attrs a_attrs k) = m k).
    { intros [s | name attrs kids]; [reflexivity|].
      unfold m. simpl. f_equal. unfold a_attrs.
      destruct (String.eqb name "a"); [|reflexivity].
      destruct (attrs !! "href"%string) as [href|] eqn:Hh; [|by rewrite Hh].
      rewrite lookup_insert_eq. reflexivity. }
    assert (Hall : forall k, find_all m (map_attrs a_attrs k) = find_all m k).
    { intros k. induction k as [s | name attrs kids IH] using node_ind';
        [reflexivity|].
      simpl. generalize 0. induction IH as [|k kids Hk _ IHkids]; intros i;
        [reflexivity|].
      simpl. by rewrite Hm, Hk, IHkids. }
    destruct soup as [s | name attrs kids]; [reflexivity|].
    simpl. generalize 0. induction kids as [|k kids IHkids]; intros i;
      [reflexivity|].
    simpl. by rewrite Hm, Hall, IHkids.
Qed.






Lemma collapse_idemp (b : bool) (n : node) :
  collapse b (collapse b n) = collapse b n.
Proof.
  revert b; induction n as [s | name attrs kids IH] using node_ind';
    intros b; simpl.
  - destruct b; [by rewrite collapse_breaks_idemp | reflexivity].
  - f_equal. rewrite map_map. apply map_ext_Forall.
    eapply Forall_impl; [exact IH|]. intros k Hk. apply Hk.
Qed.

(** X11.  The paragraph pass is idempotent: run on its own result it
    changes nothing. *)
Theorem paragraph_pass_idempotent (soup : node) :
  exists soup',
    remove_line_breaks_within_paragraphs soup = Ok soup'
    /\ remove_line_breaks_within_paragraphs soup' = Ok soup'.
Proof.
  exists (collapse_below soup).
  split; [apply remove_line_breaks_closed|].
  rewrite remove_line_breaks_closed. f_equal.
  destruct soup as [s | name attrs kids]; [reflexivity|].
  simpl. f_equal. rewrite map_map. apply map_ext. intros k.
  apply collapse_idemp.
Qed.

Lemma collapse_map_attrs g (b : bool) (n : node) :
  collapse b (map_attrs g n) = map_attrs g (collapse b n).
Proof.
  revert b; induction n as [s | name attrs kids IH] using node_ind';
    intros b; [reflexivity|].
  simpl. f_equal. rewrite !map_map. apply map_ext_Forall.
  eapply Forall_impl; [exact IH|]. intros k Hk. apply Hk.
Qed.

Lemma collapse_below_map_attrs g (n : node) :
  collapse_below (map_attrs_below g n) = map_attrs_below g (collapse_below n).
Proof.
  destruct n as [s | name attrs kids]; [reflexivity|].
  simpl. f_equal. rewrite !map_map. apply map_ext. intros k.
  apply collapse_map_attrs.
Qed.

Lemma img_a_attrs_commute (name : string) (attrs : gmap string str) :
  img_attrs name (a_attrs name attrs) = a_attrs name (img_attrs name attrs).
Proof.
  unfold img_attrs, a_attrs.
  destruct (String.eqb_spec name "img") as [->|Himg]; [reflexivity|].
  by destruct (String.eqb name "a").
Qed.

(** X12.  The three tree passes of [convert_html_to_md] do not depend on
    their order: any two of them, run one after the other, give the same
    tree in either order. *)
Theorem tree_passes_commute (soup : node) :
  (do s1 <- process_images soup; process_links s1)
  = (do s1 <- process_links soup; process_images s1)
  /\ (do s1 <- process_images soup; remove_line_breaks_within_paragraphs s1)
     = (do s1 <- remove_line_breaks_within_paragraphs soup; process_images s1)
  /\ (do s1 <- process_links soup; remove_line_breaks_within_paragraphs s1)
     = (do s1 <- remove_line_breaks_within_paragraphs soup; process_links s1).
Proof.
  rewrite !process_images_closed, !process_links_closed,
    !remove_line_breaks_closed.
  cbn [bind].
  rewrite !process_images_closed, !process_links_closed,
    !remove_line_breaks_closed.
  split_and!; f_equal.
  - rewrite !map_attrs_below_compose. apply map_attrs_below_ext.
    intros name attrs. symmetry. apply img_a_attrs_commute.
  - apply collapse_below_map_attrs.
  - apply collapse_below_map_attrs.
Qed.

(** * Further properties of the checks of [tomdtopdf.py] *)

Lemma check_fields_Returned (fields : list string)
  (metadata : gmap string pyval) :
  check_fields fields metadata = ([], Returned tt) <->
  forall field, field ∈ fields ->
    exists v, metadata !! field = Some v /\ truthy v = true.
Proof.
  induction fields as [|f fields IH].
  - split; [|done]. intros _ field Hin. by apply elem_of_nil in Hin.
  - cbn [check_fields].
    destruct (metadata !! f) as [v|] eqn:Hf.
    + destruct (truthy v) eqn:Hv; cbn [negb].
      * change (seq (ret tt) (fun _ => check_fields fields metadata))
          with (let (log', e) := check_fields fields metadata in
                ([] ++ log', e)).
        destruct (check_fields fields metadata) as [log e] eqn:Hrest.
        simpl. rewrite IH. split.
        -- intros Hall field [-> | Hin]%elem_of_cons; [eauto | by apply Hall].
        -- intros Hall field Hin. apply Hall, elem_of_cons. by right.
      * split; [discriminate|]. intros Hall.
        destruct (Hall f) as (v' & Hv' & Ht); [apply elem_of_cons; by left|].
        congruence.
    + split; [discriminate|]. intros Hall.
      destruct (Hall f) as (v' & Hv' & Ht); [apply elem_of_cons; by left|].
      congruence.
Qed.

(** X13.  [field_check] returns, without printing, exactly when each of
    the four required fields is present with a value that Python takes
    for true: a field that is [0], [0.0], [False] or empty is refused like
    a missing one. *)
Theorem field_check_accepts (metadata : gmap string pyval) :
  (field_check metadata = ([], Returned tt) <->
   forall field, field ∈ required_fields ->
     exists v, metadata !! field = Some v /\ truthy v = true)
  /\ truthy (PyInt 0) = false
  /\ truthy (PyFloat 0%float) = false
  /\ truthy (PyBool false) = false
  /\ truthy (PyStr []) = false.
Proof. split; [apply check_fields_Returned | by repeat split]. Qed.

Lemma check_fields_first (metadata : gmap string pyval)
  (good : list string) (f : string) (rest : list string) :
  (forall g, g ∈ good -> exists v, metadata !! g = Some v /\ truthy v = true) ->
  match metadata !! f with
  | None => True
  | Some v => truthy v = false
  end ->
  check_fields (good ++ f :: rest) metadata
  = ([Printed (chars "Metadata field '" ++ chars f
               ++ chars "' is missing or empty.")], Exited 1%Z).
Proof.
  intros Hgood Hbad. induction good as [|g good IH].
  - cbn [app check_fields].
    destruct (metadata !! f) as [v|]; [by rewrite Hbad | reflexivity].
  - cbn [app check_fields].
    destruct (Hgood g) as (v & -> & ->); [apply elem_of_cons; by left|].
    cbn [negb seq ret]. rewrite IH; [reflexivity|].
    intros g' Hin. apply Hgood, elem_of_cons. by right.
Qed.

(** X14.  [field_check] reports the first required field, in the order
    [title], [version], [date_modified], [pdf_filename], that is missing
    or false, by its name, and nothing about the fields after it. *)
Theorem field_check_reports_first (metadata : gmap string pyval)
  (good : list string) (f : string) (rest : list string) :
  required_fields = good ++ f :: rest ->
  (forall g, g ∈ good -> exists v, metadata !! g = Some v /\ truthy v = true) ->
  metadata !! f = None
  \/ (exists v, metadata !! f = Some v /\ truthy v = false) ->
  field_check metadata
  = ([Printed (chars "Metadata field '" ++ chars f
               ++ chars "' is missing or empty.")], Exited 1%Z).
Proof.
  intros Hreq Hgood Hbad. unfold field_check. rewrite Hreq.
  apply check_fields_first; [done|].
  by destruct Hbad as [-> | (v & -> & Hv)].
Qed.

Lemma field_check_reports_first_witness :
  field_check zero_version
  = ([Printed (chars "Metadata field '" ++ chars "version"
               ++ chars "' is missing or empty.")], Exited 1%Z).
Proof.
  apply (field_check_reports_first zero_version ["title"%string] "version"
           ["date_modified"; "pdf_filename"]%string).
  - reflexivity.
  - intros g Hg. apply list_elem_of_singleton in Hg as ->.
    by exists (PyStr (chars "Test Title")).
  - right. by exists (PyInt 0).
Defined.

Lemma lstrip_snoc (x : str) (c : ascii) :
  is_space c = false -> lstrip (x ++ [c]) = lstrip x ++ [c].
Proof.
  intros Hc. induction x as [|a x IH]; simpl.
  - by rewrite Hc.
  - by destruct (is_space a).
Qed.

Lemma lstrip_head (s : str) (c : ascii) (r : str) :
  lstrip s = c :: r -> is_space c = false.
Proof.
  induction s as [|a s IH]; [discriminate|]. simpl.
  destruct (is_space a) eqn:Ha; [exact IH | by intros [= <- _]].
Qed.

Lemma rstrip_cons (c : ascii) (t : str) :
  is_space c = false -> rstrip (c :: t) = c :: rstrip t.
Proof.
  intros Hc. unfold rstrip.
  by rewrite reverse_cons, lstrip_snoc, reverse_app by done.
Qed.

Lemma startswith_strip (line : str) :
  startswith (chars "#") (strip line) = true <->
  head (lstrip line) = Some HASH.
Proof.
  unfold strip. destruct (lstrip line) as [|c r] eqn:Hl.
  - split; discriminate.
  - rewrite rstrip_cons by by eapply lstrip_head.
    unfold startswith.
    change (strip_prefix (chars "#") (c :: rstrip r))
      with (if Ascii.eqb HASH c then Some (rstrip r) else None).
    destruct (Ascii.eqb_spec HASH c) as [<-|Hc]; [by split|].
    split; [discriminate | intros [= Heq]; congruence].
Qed.

(** X15.  [content_check] returns, without printing, exactly when some
    line of the content has ['#'] as its first character that is not
    whitespace.  (The empty content has no such line: the first test of
    the function only chooses the message.) *)
Theorem content_check_accepts (content : str) :
  content_check content = ([], Returned tt) <->
  exists line, line ∈ split_lines content /\ head (lstrip line) = Some HASH.
Proof.
  unfold content_check. destruct content as [|c content].
  - split; [discriminate|].
    intros (line & Hin & Hhead). apply list_elem_of_singleton in Hin as ->.
    discriminate.
  - cbn [seq ret app].
    destruct (existsb _ (split_lines (c :: content))) eqn:Hex; cbn [negb].
    + split; [intros _ | done].
      apply existsb_exists in Hex as (line & Hin & Hline).
      exists line. split; [by apply list_elem_of_In | by apply startswith_strip].
    + split; [discriminate|].
      intros (line & Hin & Hhead). exfalso.
      assert (existsb (fun line => startswith (chars "#") (strip line))
                (split_lines (c :: content)) = true) as Htrue.
      { apply existsb_exists. exists line.
        split; [by apply list_elem_of_In | by apply startswith_strip]. }
      congruence.
Qed.



(** X17.  When [field_check] has let the metadata pass, [html2pdf] always
    gets to the rendering: the file name is there and true, so the
    [ValueError] that [html2pdf] raises for a missing name cannot occur
    in [main]. *)
Theorem html2pdf_has_name write_pdf (metadata : gmap string pyval)
  (html : str) :
  field_check metadata = ([], Returned tt) ->
  exists name,
    metadata !! "pdf_filename"%string = Some name
    /\ truthy name = true
    /\ html2pdf write_pdf metadata html
       = match write_pdf html name with
         | None => ([Rendered], Returned tt)
         | Some e =>
             ([Rendered;
               Printed (chars "html2pdf() failed to generate PDF: " ++ e
                        ++ chars ".")], Exited 1%Z)
         end.
Proof.
  intros Hok.
  pose proof (proj1 (check_fields_Returned _ _) Hok) as Hall.
  destruct (Hall "pdf_filename"%string) as (name & Hname & Htrue).
  { by apply (bool_decide_unpack _). }
  exists name. split_and!; [done | done |].
  unfold html2pdf. rewrite Hname, Htrue. cbn [seq emit app].
  by destruct (write_pdf html name).
Qed.

Lemma html2pdf_has_name_witness :
  exists name,
    full_metadata !! "pdf_filename"%string = Some name
    /\ truthy name = true
    /\ html2pdf (fun _ _ => None) full_metadata (chars "<p>x</p>")
       = ([Rendered], Returned tt).
Proof.
  destruct (html2pdf_has_name (fun _ _ => None) full_metadata
              (chars "<p>x</p>") eq_refl) as (name & Hname & Htrue & Hrun).
  exists name. by split_and!.
Defined.

(** * The file names *)

Lemma rfind_cases (c : ascii) (s : str) :
((c ∉ s) /\ rfind c s = (-1)%Z)
  \/ exists pre post,
       s = pre ++ c :: post /\ (c ∉ post)
       /\ rfind c s = Z.of_nat (length pre).
Proof.
  destruct (decide (c ∈ s)) as [Hin | Hout].
  - right. apply list_elem_of_split_r in Hin as (pre & post & -> & Hpost).
    exists pre, post. split_and!; [done | done | by apply rfind_last].
  - left. split; [done | by apply rfind_absent].
Qed.

Lemma splitext_ext (p : str) :
  snd (splitext p) = []
  \/ exists e, snd (splitext p) = DOT :: e /\ (DOT ∉ e) /\ (SLASH ∉ e).
Proof.
  unfold splitext.
  destruct (_ && _) eqn:Hcond; [right | by left].
  apply andb_true_iff in Hcond as [Hlt _]. apply Z.ltb_lt in Hlt.
  destruct (rfind_cases DOT p) as [[_ Hdot] | (pre & post & Hp & Hpost & Hdot)].
  { destruct (rfind_cases SLASH p) as [[_ Hs] | (? & ? & _ & _ & Hs)]; lia. }
  rewrite Hdot. cbn [snd]. rewrite Nat2Z.id.
  exists post. split_and!; [| done |].
  - rewrite Hp. by rewrite drop_app_length.
  - intros Hin.
    apply list_elem_of_split_r in Hin as (a & b & Hab & Hb).
    assert (rfind SLASH p = Z.of_nat (length (pre ++ DOT :: a))) as Hsep.
    { rewrite Hp, Hab.
      replace (pre ++ DOT :: a ++ SLASH :: b)
        with ((pre ++ DOT :: a) ++ SLASH :: b) by by rewrite <- app_assoc.
      by apply rfind_last. }
    rewrite length_app in Hsep. simpl in Hsep. lia.
Qed.

Lemma splitext_join (p : str) : fst (splitext p) ++ snd (splitext p) = p.
Proof.
  unfold splitext. destruct (_ && _); cbn [fst snd].
  - apply take_drop.
  - apply app_nil_r.
Qed.

(** X18.  The name of the output file is the name of the input file with
    its extension replaced by [.md], where the extension is the part from
    the last ['.'] of the last segment on (empty when that segment has no
    ['.'] or only leading ones).  The root and the extension make up the
    input name, and the output name is the input name itself exactly when
    the extension of the input is [.md] already. *)
Theorem output_md_file_name (p : str) :
  output_md_file p = fst (splitext p) ++ chars ".md"
  /\ fst (splitext p) ++ snd (splitext p) = p
  /\ (snd (splitext p) = []
      \/ exists e,
           snd (splitext p) = DOT :: e /\ (DOT ∉ e) /\ (SLASH ∉ e))
  /\ (output_md_file p = p <-> snd (splitext p) = chars ".md").
Proof.
  split_and!; [reflexivity | apply splitext_join | apply splitext_ext |].
  unfold output_md_file. rewrite <- (splitext_join p) at 2.
  split; [intros H; by apply app_inv_head in H | by intros ->].
Qed.

(** X19.  For an input name made of a directory part (empty, or ending in
    ['/']), a file name that has a character other than ['.'], and an
    extension, the output name is the directory part and the file name
    with [.md]: the output is written next to the input. *)
Theorem output_md_file_beside (dir name ext : str) :
  dir = [] \/ last dir = Some SLASH ->
  SLASH ∉ name ->
  has_name name = true ->
  DOT ∉ ext ->
  SLASH ∉ ext ->
  splitext (dir ++ name ++ DOT :: ext) = (dir ++ name, DOT :: ext)
  /\ output_md_file (dir ++ name ++ DOT :: ext) = dir ++ name ++ chars ".md".
Proof.
  intros Hdir Hname Hhas Hext Hext'.
  assert (Hsplit : splitext (dir ++ name ++ DOT :: ext)
                   = (dir ++ name, DOT :: ext)).
  { unfold splitext.
    assert (Hdot : rfind DOT (dir ++ name ++ DOT :: ext)
                   = Z.of_nat (length (dir ++ name))).
    { rewrite app_assoc. by apply rfind_last. }
    assert (Hrest : SLASH ∉ name ++ DOT :: ext).
    { rewrite not_elem_of_app, not_elem_of_cons. by split_and!. }
    assert (Hslice :
              (rfind SLASH (dir ++ name ++ DOT :: ext)
               <? Z.of_nat (length (dir ++ name)))%Z = true
              /\ take (Z.to_nat (Z.of_nat (length (dir ++ name))
                                 - (rfind SLASH (dir ++ name ++ DOT :: ext) + 1)))
                   (drop (Z.to_nat (rfind SLASH (dir ++ name ++ DOT :: ext) + 1))
                      (dir ++ name ++ DOT :: ext))
                 = name).
    { destruct Hdir as [-> | Hlast].
      - simpl app. rewrite rfind_absent by done. split; [apply Z.ltb_lt; lia|].
        simpl Z.to_nat at 2. rewrite drop_0.
        replace (Z.to_nat (Z.of_nat (length name) - (-1 + 1)))
          with (length name) by lia.
        apply take_app_length.
      - apply last_Some in Hlast as [d ->].
        assert (rfind SLASH ((d ++ [SLASH]) ++ name ++ DOT :: ext)
                = Z.of_nat (length d)) as ->.
        { rewrite <- app_assoc. by apply rfind_last. }
        rewrite length_app, length_app. simpl length.
        split; [apply Z.ltb_lt; lia|].
        replace (Z.to_nat (Z.of_nat (length d) + 1))
          with (length (d ++ [SLASH])) by (rewrite length_app; simpl; lia).
        rewrite drop_app_length.
        replace (Z.to_nat (Z.of_nat (length d + 1 + length name)
                           - (Z.of_nat (length d) + 1)))
          with (length name) by lia.
        apply take_app_length. }
    rewrite Hdot. destruct Hslice as [-> ->]. rewrite Hhas. cbn [andb].
    rewrite Nat2Z.id, app_assoc.
    by rewrite take_app_length, drop_app_length. }
  split; [exact Hsplit|].
  unfold output_md_file. rewrite Hsplit. cbn [fst]. by rewrite <- app_assoc.
Qed.

(** ["docs/page.html"] is converted to ["docs/page.md"]. *)
Lemma output_md_file_beside_witness :
  splitext (chars "docs/" ++ chars "page" ++ DOT :: chars "html")
  = (chars "docs/" ++ chars "page", DOT :: chars "html")
  /\ output_md_file (chars "docs/" ++ chars "page" ++ DOT :: chars "html")
     = chars "docs/" ++ chars "page" ++ chars ".md".
Proof.
  apply output_md_file_beside;
    [by right | by apply (bool_decide_unpack _) | reflexivity
    | by apply (bool_decide_unpack _) | by apply (bool_decide_unpack _)].
Defined.

Lemma lstrip_char_nil (c : ascii) (s : str) :
  lstrip_char c s = [] -> s = replicate (length s) c.
Proof.
  induction s as [|a s IH]; [reflexivity|]. simpl.
  destruct (Ascii.eqb_spec a c) as [->|]; [|discriminate].
  intros H. by rewrite <- IH.
Qed.

Lemma rstrip_char_nil (c : ascii) (s : str) :
  rstrip_char c s = [] -> s = replicate (length s) c.
Proof.
  unfold rstrip_char. intros H.
  apply (f_equal reverse) in H. rewrite reverse_involutive in H.
  apply lstrip_char_nil in H. rewrite length_reverse in H.
  apply (f_equal reverse) in H. rewrite reverse_involutive in H.
  by rewrite reverse_replicate in H.
Qed.

Lemma rstrip_char_snoc (c : ascii) (s : str) :
  last s <> Some c -> rstrip_char c (s ++ [c]) = rstrip_char c s
                      /\ rstrip_char c s = s.
Proof.
  intros Hlast. unfold rstrip_char.
  rewrite reverse_app. simpl. rewrite Ascii.eqb_refl.
  assert (lstrip_char c (reverse s) = reverse s) as ->.
  { destruct s as [|a s _] using rev_ind; [reflexivity|].
    rewrite last_snoc in Hlast. rewrite reverse_app. simpl.
    destruct (Ascii.eqb_spec a c); [congruence | reflexivity]. }
  by rewrite reverse_involutive.
Qed.

(** X20.  [md2html] hands the template loader a directory that is never
    the empty text and a file name without ['/'], the basename of the
    location.  A location [dir/file] is split into [dir] and [file], and
    a location without ['/'] is looked for in ["."]. *)
Theorem template_parts_split :
  (forall loc,
      fst (template_parts loc) <> []
      /\ snd (template_parts loc) = basename loc
      /\ (SLASH ∉ snd (template_parts loc)))
  /\ (forall dir file,
         dir <> [] -> last dir <> Some SLASH -> SLASH ∉ file ->
         template_parts (dir ++ SLASH :: file) = (dir, file))
  /\ (forall file, SLASH ∉ file -> template_parts file = (chars ".", file)).
Proof.
  split_and!.
  - intros loc. unfold template_parts, path_split.
    set (head := take (Z.to_nat (rfind SLASH loc + 1)) loc).
    cbn [fst snd]. split_and!; [| reflexivity | apply basename_no_slash].
    destruct (bool_decide (head <> [])) eqn:Hne; cbn [andb].
    + apply bool_decide_eq_true in Hne.
      destruct (bool_decide (head <> replicate (length head) SLASH)) eqn:Hall.
      * apply bool_decide_eq_true in Hall.
        destruct (rstrip_char SLASH head) as [|a r] eqn:Hr; [|done].
        by apply rstrip_char_nil in Hr.
      * by destruct head.
    + apply bool_decide_eq_false in Hne.
      destruct head; [done | exfalso; by apply Hne].
  - intros dir file Hdir Hlast Hfile. unfold template_parts, path_split.
    rewrite rfind_last by done.
    replace (Z.to_nat (Z.of_nat (length dir) + 1))
      with (length (dir ++ [SLASH])) by (rewrite length_app; simpl; lia).
    replace (dir ++ SLASH :: file) with ((dir ++ [SLASH]) ++ file)
      by by rewrite <- app_assoc.
    rewrite take_app_length, drop_app_length.
    rewrite bool_decide_eq_true_2 by by destruct dir.
    rewrite bool_decide_eq_true_2.
    + cbn [andb]. destruct (rstrip_char_snoc SLASH dir Hlast) as [-> ->].
      by destruct dir.
    + intros Hall. apply Hlast.
      rewrite length_app in Hall. simpl in Hall.
      rewrite Nat.add_1_r, replicate_S_end in Hall.
      apply app_inj_tail in Hall as [-> _].
      destruct (length dir) eqn:Hn; [by destruct dir|].
      by rewrite replicate_S_end, last_snoc.
  - intros file Hfile. unfold template_parts, path_split.
    by rewrite rfind_absent.
Qed.

(** ["templates/report.html"] and a name without a directory. *)
Lemma template_parts_split_witness :
  template_parts (chars "templates" ++ SLASH :: chars "report.html")
  = (chars "templates", chars "report.html")
  /\ template_parts (chars "template.html")
     = (chars ".", chars "template.html").
Proof.
  destruct template_parts_split as (_ & Hdir & Hplain).
  split.
  - apply Hdir; [done | discriminate | by apply (bool_decide_unpack _)].
  - apply Hplain. by apply (bool_decide_unpack _).
Defined.

(** * The headings of the result *)








(** * Instances of the further properties *)

(** The image with a path as [src]: after the pass its [src] is
    ["images/photo.png"]. *)
Lemma image_pass_frame_witness :
  exists b, chars "images/photo.png" = chars "images/" ++ b /\ (SLASH ∉ b).
Proof.
  destruct (image_pass_frame photo_soup) as (soup' & Hrun & _ & Hpost).
  vm_compute in Hrun. injection Hrun as <-.
  eapply (Hpost [0; 0]); [done | vm_compute; reflexivity | | done].
  vm_compute. reflexivity.
Defined.


(** The front matter of the tests is let through. *)
Lemma field_check_accepts_witness :
  field_check full_metadata = ([], Returned tt).
Proof.
  apply (proj1 (field_check_accepts full_metadata)).
  intros field Hin.
  repeat (apply elem_of_cons in Hin as [-> | Hin]; [by eexists|]).
  by apply elem_of_nil in Hin.
Defined.

(** A content whose heading is indented and not on the first line. *)
Lemma content_check_accepts_witness :
  content_check (chars "intro" ++ LF :: chars "  # Title")
  = ([], Returned tt).
Proof.
  apply content_check_accepts. exists (chars "  # Title").
  split; [|reflexivity].
  apply (bool_decide_unpack _). by vm_compute.
Defined.
